(** * AdamW (src/optimizer.py): a shallow embedding and its properties

    The optimizer is a Python class over PyTorch.  Its two methods are
    embedded here as they are written:

    - [AdamW.__init__] validates four hyperparameters with Python float
      comparisons and hands the parameters and the defaults to the base
      class;
    - [AdamW.step] runs an optional closure, then walks every parameter of
      every group and updates it with in-place tensor operations.

    Python floats are IEEE binary64 numbers: they are Rocq's primitive
    floats, with the same comparisons (a NaN compares false) and the same
    correctly rounded [+], [-], [*].  What a tensor element is (float32,
    float64, ...) and how a kernel rounds is left to an interface,
    [Numerics]; every general theorem holds for any implementation of it.
    Tensors live in a store and are named by their location, so that an
    in-place operation is seen through every alias of the tensor. *)

From Stdlib Require Import ZArith Floats.
From stdpp Require Import base option list gmap.

Set Default Proof Using "Type".
Set Warnings "-inexact-float,-level-tolerance".
Open Scope Z_scope.
Open Scope nat_scope.

(** ** Numeric interface *)

(** The scalar kernels PyTorch applies to each element, and Python's
    [float ** int] (computed by the platform's [pow]).  The arguments are
    in the order of the formula the kernel computes.  Python raises
    OverflowError when a power overflows; a base in [0.0, 1.0), which is
    all the constructor lets through, has every power in [0.0, 1.0], so
    [py_pow] is a total function here. *)
Class Numerics (E : Type) := {
  py_pow : float → Z → float;          (* base ** exponent            *)
  el_zero : E;                          (* an element of zeros_like    *)
  el_mul : E → float → E;               (* x * s                       *)
  el_div : E → float → E;               (* x / s                       *)
  el_add : E → float → E;               (* x + s                       *)
  el_add_alpha : E → float → E → E;     (* x + alpha * y               *)
  el_addcmul : E → float → E → E → E;   (* x + value * y * z           *)
  el_divide : E → E → E;                (* x / y                       *)
  el_sqrt : E → E;                      (* sqrt x                      *)
}.

(** ** Exceptions and results *)

(** The exceptions the code raises, without their messages. *)
Inductive exn := ValueError | RuntimeError.

Inductive outcome (A : Type) :=
  | Ok (a : A)
  | Raise (e : exn).
Arguments Ok {A} a.
Arguments Raise {A} e.

Global Instance exn_eq_dec : EqDecision exn.
Proof. solve_decision. Defined.

(** ** Hyperparameter validation and construction *)

(** Tensor objects are named by their place in the store. *)
Abbreviation loc := nat (only parsing).

(** One entry of [param_groups]: the dict with keys "params", "lr",
    "betas", "eps", "weight_decay" and "correct_bias". *)
Record Group := {
  params : list loc;
  lr : float;
  betas : float * float;
  eps : float;
  weight_decay : float;
  correct_bias : bool;
}.

(** The value of [self.state[p]] once it is filled: keys "step", "m", "v".
    An empty dict (what the defaultdict hands out at first) is the absence
    of an entry. *)
Record State := {
  st_step : Z;
  st_m : loc;
  st_v : loc;
}.

Record Optimizer := {
  param_groups : list Group;
  state : gmap loc State;
}.

(** [torch.optim.Optimizer.__init__] for a flat collection of parameters:
    an empty collection is refused with a ValueError, otherwise there is
    one group, holding the parameters and the defaults, and no state. *)
Definition Optimizer_init (ps : list loc) (defaults : list loc → Group)
  : outcome Optimizer :=
  match ps with
  | [] => Raise ValueError
  | _ => Ok {| param_groups := [defaults ps]; state := ∅ |}
  end.

(** [0.0 <= b < 1.0], a chained comparison. *)
Definition in_unit_interval (b : float) : bool :=
  ((0 <=? b) && (b <? 1))%float.

(** [AdamW.__init__]. *)
Definition AdamW_init (ps : list loc) (lr : float) (betas : float * float)
    (eps : float) (weight_decay : float) (correct_bias : bool)
  : outcome Optimizer :=
  if (lr <? 0)%float then Raise ValueError
  else if negb (in_unit_interval (fst betas)) then Raise ValueError
  else if negb (in_unit_interval (snd betas)) then Raise ValueError
  else if negb (0 <=? eps)%float then Raise ValueError
  else
    Optimizer_init ps (λ ps,
      {| params := ps; lr := lr; betas := betas; eps := eps;
         weight_decay := weight_decay; correct_bias := correct_bias |}).

(** The default arguments of the constructor. *)
Definition default_lr : float := 0.001%float.
Definition default_betas : float * float := (0.9, 0.999)%float.
Definition default_eps : float := 1e-6%float.
Definition default_weight_decay : float := 0%float.
Definition default_correct_bias : bool := true.

(** ** The store *)

Section Model.
Context {E : Type} `{!Numerics E}.

(** A tensor object: its elements (flattened), its layout flag and its
    [grad] attribute.  A parameter [p] and [p.data] share their storage,
    and so do [p.grad] and [p.grad.data]: each pair is one location. *)
Record Tensor := {
  elems : list E;
  is_sparse : bool;
  grad : option loc;
}.

Global Instance Tensor_inhabited : Inhabited Tensor :=
  populate {| elems := []; is_sparse := false; grad := None |}.

Record World := {
  heap : list Tensor;
  self : Optimizer;
}.

Definition set_elems (xs : list E) (t : Tensor) : Tensor :=
  {| elems := xs; is_sparse := is_sparse t; grad := grad t |}.

Definition set_grad (g : option loc) (t : Tensor) : Tensor :=
  {| elems := elems t; is_sparse := is_sparse t; grad := g |}.

Definition set_heap (f : list Tensor → list Tensor) (w : World) : World :=
  {| heap := f (heap w); self := self w |}.

Definition set_state (f : gmap loc State → gmap loc State) (w : World)
  : World :=
  {| heap := heap w;
     self := {| param_groups := param_groups (self w);
                state := f (state (self w)) |} |}.

(** ** Computations: a store that survives an exception *)

Definition M (A : Type) : Type := World → outcome A * World.

Global Instance M_ret : MRet M := λ A a w, (Ok a, w).
Global Instance M_bind : MBind M := λ A B f c w,
  match c w with
  | (Ok a, w') => f a w'
  | (Raise e, w') => (Raise e, w')
  end.

Definition raise {A} (e : exn) : M A := λ w, (Raise e, w).
Definition gets {A} (f : World → A) : M A := λ w, (Ok (f w), w).
Definition modify (f : World → World) : M unit := λ w, (Ok (), f w).

(** [for x in xs: body(x)] *)
Fixpoint for_ {A} (xs : list A) (body : A → M unit) : M unit :=
  match xs with
  | [] => mret ()
  | x :: xs => body x;; for_ xs body
  end.

(** ** Tensor operations *)

(** A tensor argument is a tensor of the store or a temporary, the result
    of an out-of-place operation that no one else holds. *)
Inductive operand :=
  | Ref (l : loc)
  | Tmp (xs : list E).

Definition deref (l : loc) : M Tensor := gets (λ w, heap w !!! l).

Definition read (t : operand) : M (list E) :=
  match t with
  | Ref l => t ← deref l; mret (elems t)
  | Tmp xs => mret xs
  end.

Definition write (l : loc) (xs : list E) : M unit :=
  modify (set_heap (alter (set_elems xs) l)).

(** [torch.zeros_like(src)]: a new tensor of the shape and layout of
    [src]. *)
Definition zeros_like (src : loc) : M loc := λ w,
  let t := heap w !!! src in
  let fresh := length (heap w) in
  (Ok fresh,
   set_heap (λ h, h ++ [ {| elems := replicate (length (elems t)) el_zero;
                            is_sparse := is_sparse t;
                            grad := None |} ]) w).

(** In-place operations, [self.op_(...)]. *)
Definition mul_ (self : loc) (s : float) : M unit :=
  xs ← read (Ref self);
  write self (map (λ x, el_mul x s) xs).

Definition add_ (self : loc) (other : operand) (alpha : float) : M unit :=
  xs ← read (Ref self);
  ys ← read other;
  write self (zip_with (λ x y, el_add_alpha x alpha y) xs ys).

Definition addcmul_ (self : loc) (t1 t2 : operand) (value : float)
  : M unit :=
  xs ← read (Ref self);
  ys ← read t1;
  zs ← read t2;
  write self (zip_with (λ x yz, el_addcmul x value yz.1 yz.2) xs (zip ys zs)).

(** Out-of-place operations: the result is a new tensor. *)
Definition mul_scalar (t : operand) (s : float) : M operand :=
  xs ← read t; mret (Tmp (map (λ x, el_mul x s) xs)).

Definition div_scalar (t : operand) (s : float) : M operand :=
  xs ← read t; mret (Tmp (map (λ x, el_div x s) xs)).

Definition add_scalar (t : operand) (s : float) : M operand :=
  xs ← read t; mret (Tmp (map (λ x, el_add x s) xs)).

Definition sqrt (t : operand) : M operand :=
  xs ← read t; mret (Tmp (map el_sqrt xs)).

Definition divide (t1 t2 : operand) : M operand :=
  xs ← read t1; ys ← read t2; mret (Tmp (zip_with el_divide xs ys)).

(** ** [AdamW.step] *)

(** Lines 50 to 55: [self.state[p]], filled at the first visit. *)
Definition state_of (p : loc) : M State :=
  st ← gets (λ w, state (self w) !! p);
  match st with
  | Some st => mret st
  | None =>
      m ← zeros_like p;
      v ← zeros_like p;
      let st := {| st_step := 0; st_m := m; st_v := v |} in
      modify (set_state <[p := st]>);;
      mret st
  end.

(** Lines 57 to 82: the update of the parameter [p], whose gradient is the
    dense tensor [g] and whose state dict is [st]. *)
Definition adam_update (group : Group) (p g : loc) (st : State) : M unit :=
  let lr := lr group in
  let '(beta1, beta2) := betas group in
  let eps := eps group in
  let weight_decay := weight_decay group in
  let m := st_m st in
  let v := st_v st in
  let step := (st_step st + 1)%Z in
  modify (set_state <[p := {| st_step := step; st_m := m; st_v := v |}]>);;
  mul_ m beta1;; add_ m (Ref g) (1 - beta1)%float;;
  mul_ v beta2;; addcmul_ v (Ref g) (Ref g) (1 - beta2)%float;;
  hats ← (if correct_bias group then
            m_hat ← div_scalar (Ref m) (1 - py_pow beta1 step)%float;
            v_hat ← div_scalar (Ref v) (1 - py_pow beta2 step)%float;
            mret (m_hat, v_hat)
          else mret (Ref m, Ref v));
  num ← mul_scalar hats.1 lr;
  root ← sqrt hats.2;
  den ← add_scalar root eps;
  update ← divide num den;
  add_ p update (-1)%float;;
  if negb (weight_decay =? 0)%float then
    add_ p (Ref p) (- lr * weight_decay)%float
  else mret ().

(** The body of the inner loop, for the parameter [p] of [group]. *)
Definition update_param (group : Group) (p : loc) : M unit :=
  pt ← deref p;
  match grad pt with
  | None => mret ()
  | Some g =>
      gt ← deref g;
      if is_sparse gt then raise RuntimeError
      else st ← state_of p; adam_update group p g st
  end.

(** What a closure returns, and what [step] returns: a Python object, or
    Python's [None]. *)
Context {Val : Type}.

Definition step (closure : option (M (option Val))) : M (option Val) :=
  loss ← match closure with
         | Some closure => closure
         | None => mret None
         end;
  groups ← gets (λ w, param_groups (self w));
  for_ groups (λ group, for_ (params group) (update_param group));;
  mret loss.

(** The two halves of [step]: the call of the closure, and the loops. *)
Definition call (closure : option (M (option Val))) : M (option Val) :=
  match closure with
  | Some closure => closure
  | None => mret None
  end.

Definition updates : M unit :=
  groups ← gets (λ w, param_groups (self w));
  for_ groups (λ group, for_ (params group) (update_param group)).

(** Calls of [step] one after the other, each with its closure.  A caller
    that catches an exception goes on with the store as the failed call
    left it. *)
Fixpoint run_steps (closures : list (option (M (option Val)))) (w : World)
  : World :=
  match closures with
  | [] => w
  | c :: closures => run_steps closures (step c w).2
  end.

(** ** The update rule of the specification, elementwise

    Steps 3 to 7 of the update, as functions of the values of one
    parameter: nothing else enters them. *)

(** [m ← beta1·m + (1−beta1)·grad] *)
Definition moment1 (beta1 : float) (m g : list E) : list E :=
  zip_with (λ m g, el_add_alpha (el_mul m beta1) (1 - beta1)%float g) m g.

(** [v ← beta2·v + (1−beta2)·grad²] *)
Definition moment2 (beta2 : float) (v g : list E) : list E :=
  zip_with (λ v g, el_addcmul (el_mul v beta2) (1 - beta2)%float g g) v g.

(** [x / (1 − beta^t)] *)
Definition bias_corrected (beta : float) (t : Z) (x : list E) : list E :=
  map (λ x, el_div x (1 - py_pow beta t)%float) x.

(** [m̂] and [v̂]: corrected if [correct_bias], raw otherwise. *)
Definition estimate (correct_bias : bool) (beta : float) (t : Z)
    (x : list E) : list E :=
  if correct_bias then bias_corrected beta t x else x.

(** [delta = learningRate · m̂ / (sqrt(v̂) + epsilon)] *)
Definition delta (lr eps : float) (m_hat v_hat : list E) : list E :=
  zip_with el_divide
    (map (λ x, el_mul x lr) m_hat)
    (map (λ x, el_add x eps) (map el_sqrt v_hat)).

(** [param ← param − delta] *)
Definition descend (p d : list E) : list E :=
  zip_with (λ x d, el_add_alpha x (-1)%float d) p d.

(** [param ← param − learningRate · weightDecay · param] *)
Definition decay (lr weight_decay : float) (p : list E) : list E :=
  map (λ x, el_add_alpha x (- lr * weight_decay)%float x) p.

(** The parameter after the gradient step (step 6), and after the whole
    update (step 7). *)
Definition stepped (group : Group) (t : Z) (m v p : list E) : list E :=
  descend p
    (delta (lr group) (eps group)
       (estimate (correct_bias group) (betas group).1 t m)
       (estimate (correct_bias group) (betas group).2 t v)).

Definition updated (group : Group) (t : Z) (m v p : list E) : list E :=
  if negb (weight_decay group =? 0)%float
  then decay (lr group) (weight_decay group) (stepped group t m v p)
  else stepped group t m v p.

(** ** Worlds the optimizer can meet *)

(** The pairs (group, parameter) in the order the loops of [step] visit
    them. *)
Definition iteration (w : World) : list (Group * loc) :=
  group ← param_groups (self w); p ← params group; [(group, p)].

Definition all_params (w : World) : list loc := (iteration w).*2.

(** The tensors held by the state dict. *)
Definition moment_locs (s : gmap loc State) : list loc :=
  kv ← map_to_list s; [st_m kv.2; st_v kv.2].

(** The gradient of [p], if any, is dense. *)
Definition dense_or_absent (w : World) (p : loc) : Prop :=
  match grad (heap w !!! p) with
  | Some g => is_sparse (heap w !!! g) = false
  | None => True
  end.

(** The elements of the tensor at [l]. *)
Definition values (w : World) (l : loc) : list E := elems (heap w !!! l).

(** The gradient of [p], if any, is a tensor of its own, of the shape of
    [p]. *)
Definition grad_ok (w : World) (p : loc) : Prop :=
  match grad (heap w !!! p) with
  | Some g =>
      (g < length (heap w)) ∧ (g ∉ all_params w) ∧
      (g ∉ moment_locs (state (self w))) ∧
      length (values w g) = length (values w p)
  | None => True
  end.

(** The parameter [p] exists, and its moments have its shape. *)
Definition shape_ok (w : World) (p : loc) (st : State) : Prop :=
  p < length (heap w) ∧
  length (values w (st_m st)) = length (values w p) ∧
  length (values w (st_v st)) = length (values w p).

(** Every object exists; the moment tensors are private: each belongs to
    one entry of the state dict and is neither a parameter nor a gradient;
    gradients and moments have the shape of their parameter, as PyTorch and
    [zeros_like] see to, so that an elementwise operation never meets two
    shapes.  (PyTorch refuses a parameter in two groups; a parameter
    repeated inside a group only draws a warning, and is allowed here.) *)
Definition wf (w : World) : Prop :=
  Forall (λ p, p < length (heap w)) (all_params w) ∧
  Forall (λ l, l < length (heap w) ∧ l ∉ all_params w)
    (moment_locs (state (self w))) ∧
  NoDup (moment_locs (state (self w))) ∧
  Forall (grad_ok w) (all_params w) ∧
  map_Forall (shape_ok w) (state (self w)).

Global Instance dense_or_absent_dec w p : Decision (dense_or_absent w p).
Proof. unfold dense_or_absent. destruct (grad _); apply _. Defined.

Global Instance grad_ok_dec w p : Decision (grad_ok w p).
Proof. unfold grad_ok. destruct (grad _); apply _. Defined.

Global Instance shape_ok_dec w p st : Decision (shape_ok w p st).
Proof. unfold shape_ok. apply _. Defined.

Global Instance wf_dec w : Decision (wf w).
Proof. unfold wf. apply _. Defined.

(** The step count and the moments an update of [p] starts from: those of
    its state dict, or those of the dict the first visit creates. *)
Definition step_count (w : World) (p : loc) : Z :=
  match state (self w) !! p with
  | Some st => st_step st
  | None => 0%Z
  end.

Definition first_moment (w : World) (p : loc) : list E :=
  match state (self w) !! p with
  | Some st => values w (st_m st)
  | None => replicate (length (values w p)) el_zero
  end.

Definition second_moment (w : World) (p : loc) : list E :=
  match state (self w) !! p with
  | Some st => values w (st_v st)
  | None => replicate (length (values w p)) el_zero
  end.

(** ** Vocabulary of the statements *)

(** The parameter [p], of group [G], is visited once by the loops, the
    visits before it do not raise, and its gradient is the dense tensor
    [g]: this call of [step] updates it. *)
Definition visits_once (w : World) (G : Group) (p g : loc) : Prop :=
  wf w ∧
  grad (heap w !!! p) = Some g ∧ is_sparse (heap w !!! g) = false ∧
  ∃ pre post,
    iteration w = pre ++ (G, p) :: post ∧
    p ∉ pre.*2 ∧ p ∉ post.*2 ∧
    Forall (λ x, dense_or_absent w x.2) pre.

Definition trainable (p : loc) (w : World) : Prop :=
  ∃ G g, visits_once w G p g.

(** A closure that returns, keeps [p] trainable (it may write any
    gradient) and leaves the state dict of [p] alone. *)
Definition feeds (p : loc) (closure : option (M (option Val))) : Prop :=
  ∀ w r w1,
    trainable p w → call closure w = (r, w1) →
    (∃ loss, r = Ok loss) ∧ trainable p w1 ∧
    state (self w1) !! p = state (self w) !! p.

(** The parameter [p] has no gradient. *)
Definition idle (p : loc) (w : World) : Prop :=
  wf w ∧ p ∈ all_params w ∧ grad (heap w !!! p) = None.

(** A closure that keeps the gradient of [p] absent and touches neither
    [p] nor its state dict. *)
Definition quiet (p : loc) (closure : option (M (option Val))) : Prop :=
  ∀ w r w1,
    idle p w → call closure w = (r, w1) →
    idle p w1 ∧ heap w1 !! p = heap w !! p ∧
    state (self w1) !! p = state (self w) !! p.

(** ** Auxiliary definitions of the proofs *)

(** What an operand denotes in a store. *)
Definition value_of (w : World) (t : operand) : list E :=
  match t with
  | Ref l => elems (heap w !!! l)
  | Tmp xs => xs
  end.

(** The store after an in-place operation on [l]. *)
Definition poke (l : loc) (xs : list E) (w : World) : World :=
  set_heap (alter (set_elems xs) l) w.

(** The state dict [state_of] creates, and the store it leaves. *)
Definition fresh_state (w : World) : State :=
  {| st_step := 0; st_m := length (heap w); st_v := S (length (heap w)) |}.

Definition zeros_for (w : World) (p : loc) : Tensor :=
  {| elems := replicate (length (elems (heap w !!! p))) el_zero;
     is_sparse := is_sparse (heap w !!! p);
     grad := None |}.

Definition with_state (p : loc) (w : World) : World :=
  {| heap := heap w ++ [zeros_for w p; zeros_for w p];
     self := {| param_groups := param_groups (self w);
                state := <[p := fresh_state w]> (state (self w)) |} |}.

(** The store [adam_update] leaves when the tensors are apart. *)
Definition after_update (G : Group) (p g : loc) (st : State) (w : World)
  : World :=
  let t := (st_step st + 1)%Z in
  let gs := elems (heap w !!! g) in
  let m' := moment1 (betas G).1 (elems (heap w !!! st_m st)) gs in
  let v' := moment2 (betas G).2 (elems (heap w !!! st_v st)) gs in
  let p' := updated G t m' v' (elems (heap w !!! p)) in
  {| heap := alter (set_elems p') p
               (alter (set_elems v') (st_v st)
                  (alter (set_elems m') (st_m st) (heap w)));
     self := {| param_groups := param_groups (self w);
                state := <[p := {| st_step := t; st_m := st_m st;
                                   st_v := st_v st |}]> (state (self w)) |} |}.

(** [w'] has the groups of [w] and its tensors, with their shape, their
    layout and their gradients; elements and the state dict may differ. *)
Definition evolves (w w' : World) : Prop :=
  param_groups (self w') = param_groups (self w) ∧
  length (heap w) ≤ length (heap w') ∧
  ∀ l, l < length (heap w) →
    grad (heap w' !!! l) = grad (heap w !!! l) ∧
    is_sparse (heap w' !!! l) = is_sparse (heap w !!! l) ∧
    length (values w' l) = length (values w l).

(** The tensors of the parameter [p]: itself, its gradient, its moments. *)
Definition owned_by (w : World) (p l : loc) : Prop :=
  l = p ∨ grad (heap w !!! p) = Some l ∨
  ∃ st, state (self w) !! p = Some st ∧ (l = st_m st ∨ l = st_v st).

Definition same_view (w w' : World) (p : loc) : Prop :=
  state (self w') !! p = state (self w) !! p ∧
  ∀ l, owned_by w p l → heap w' !! l = heap w !! l.

(** ** Vocabulary of the further statements *)

(** [n] updates of one parameter from the same gradient [gs]: the step
    count, the two moments and the parameter they end with. *)
Fixpoint repeated (G : Group) (gs : list E) (n : nat) (t : Z)
    (m v p : list E) : Z * list E * list E * list E :=
  match n with
  | 0 => (t, m, v, p)
  | S n =>
      let m' := moment1 (betas G).1 m gs in
      let v' := moment2 (betas G).2 v gs in
      repeated G gs n (t + 1) m' v' (updated G (t + 1) m' v' p)
  end.

(** A store in which the parameters [ps] can be handed to the
    constructor: each exists, and its gradient, if any, is a tensor of its
    shape that is not itself a parameter. *)
Definition hosts (h : list Tensor) (ps : list loc) : Prop :=
  Forall (λ p,
    p < length h ∧
    match grad (h !!! p) with
    | Some g =>
        g < length h ∧ g ∉ ps ∧
        length (elems (h !!! g)) = length (elems (h !!! p))
    | None => True
    end) ps.

Global Instance hosts_dec h ps : Decision (hosts h ps).
Proof.
  unfold hosts. apply Forall_dec. intros p. destruct (grad _); apply _.
Defined.

(** The stores on which [beta ** step] cannot raise.  Python converts the
    exponent to a float and raises OverflowError when it does not fit
    (from about [2^1024] on), raises OverflowError when the power of a base
    above 1 overflows, and raises ZeroDivisionError for [0.0] to a negative
    exponent.  None of this happens when the betas are those the
    constructor lets through and the step counts are not negative and far
    enough below [2^1023] for one call of [step] to stay below it. *)
Definition pow_safe (w : World) : Prop :=
  Forall (λ G, in_unit_interval (betas G).1 = true ∧
               in_unit_interval (betas G).2 = true)
    (param_groups (self w)) ∧
  (Z.of_nat (length (all_params w)) < 2 ^ 1022)%Z ∧
  map_Forall (λ _ st, (0 ≤ st_step st < 2 ^ 1022)%Z) (state (self w)).

Global Instance pow_safe_dec w : Decision (pow_safe w).
Proof. unfold pow_safe. apply _. Defined.

End Model.

(** ** An implementation of the interface: float64 tensors

    Every kernel rounds after each operation, as the scalar CPU loops do on
    [torch.float64].  [pow_iter] multiplies the base [n] times; it agrees
    with the platform's [pow] at the exponents 0 and 1, where both are
    exact. *)

Definition pow_iter (x : float) (n : Z) : float :=
  match n with
  | Z0 => 1%float
  | Zpos k => Pos.iter (λ y, (y * x)%float) 1%float k
  | Zneg k => (1 / Pos.iter (λ y, (y * x)%float) 1%float k)%float
  end.

Global Instance float64 : Numerics float := {|
  py_pow := pow_iter;
  el_zero := 0%float;
  el_mul x s := (x * s)%float;
  el_div x s := (x / s)%float;
  el_add x s := (x + s)%float;
  el_add_alpha x alpha y := (x + alpha * y)%float;
  el_addcmul x value y z := (x + value * y * z)%float;
  el_divide x y := (x / y)%float;
  el_sqrt x := PrimFloat.sqrt x;
|}.

(** ** Sample worlds

    The inputs of the specification's examples: a parameter [1.0] with the
    gradient [0.1], under [lr = 0.1], [betas = (0.9, 0.999)] and
    [eps = 1e-6]; with it in the group, a second parameter, [(2.0, 3.0)],
    whose gradient is absent, or present and sparse (the elements of a
    sparse tensor are those of its dense form). *)

Definition sample_group (weight_decay : float) (correct_bias : bool)
  : Group :=
  {| params := [0; 2];
     lr := 0.1%float; betas := (0.9, 0.999)%float; eps := 1e-6%float;
     weight_decay := weight_decay; correct_bias := correct_bias |}.

Definition sample_heap (second_grad : option loc) : list (@Tensor float) :=
  [ {| elems := [1.0%float]; is_sparse := false; grad := Some 1 |};
    {| elems := [0.1%float]; is_sparse := false; grad := None |};
    {| elems := [2.0%float; 3.0%float]; is_sparse := false;
       grad := second_grad |};
    {| elems := [0.5%float; 0%float]; is_sparse := true; grad := None |} ].

Definition sample_world (weight_decay : float) (correct_bias : bool)
  : @World float :=
  {| heap := sample_heap None;
     self := {| param_groups := [sample_group weight_decay correct_bias];
                state := ∅ |} |}.

Definition sparse_world : @World float :=
  {| heap := sample_heap (Some 3);
     self := {| param_groups := [sample_group 0%float true];
                state := ∅ |} |}.

(** A closure in the manner of [zero_grad(set_to_none=True)], for one
    parameter. *)
Definition clear_grad {E Val} (p : loc) : @M E (option Val) :=
  modify (set_heap (alter (set_grad None) p));; mret None.

(** The sample store with the first parameter listed twice in its group:
    PyTorch warns about it and goes on. *)
Definition tied_world : @World float :=
  {| heap := sample_heap None;
     self := {| param_groups :=
                  [ {| params := [0; 2; 0];
                       lr := 0.1%float; betas := (0.9, 0.999)%float;
                       eps := 1e-6%float; weight_decay := 0%float;
                       correct_bias := true |} ];
                state := ∅ |} |}.

(** The sample store with both betas at [0.0], which the constructor
    accepts, and the sample store with a gradient of zero. *)
Definition zero_beta_world (correct_bias : bool) : @World float :=
  {| heap := sample_heap None;
     self := {| param_groups :=
                  [ {| params := [0; 2];
                       lr := 0.1%float; betas := (0%float, 0%float);
                       eps := 1e-6%float; weight_decay := 0%float;
                       correct_bias := correct_bias |} ];
                state := ∅ |} |}.

Definition zero_grad_world (correct_bias : bool) : @World float :=
  set_heap (alter (set_elems [0%float]) 1)
    (sample_world 0%float correct_bias).

(** * Properties *)

Section Properties.
Context {E : Type} `{!Numerics E} {Val : Type}.
Implicit Types (w : @World E) (p q g l : loc) (G : Group) (st : State).

(** ** The loops and the monad *)

Abbreviation visit := (λ x : Group * loc, update_param x.1 x.2).

Lemma bind_run {A B} (c : M A) (f : A → M B) w :
  (c ≫= f) w =
  match c w with
  | (Ok a, w') => f a w'
  | (Raise e, w') => (Raise e, w')
  end.
Proof. reflexivity. Qed.

Lemma for_ext {A} (xs : list A) (f h : A → M unit) w :
  (∀ x w, f x w = h x w) → for_ xs f w = for_ xs h w.
Proof.
  intros Hfh. revert w. induction xs as [|x xs IH]; intros w; [done|].
  simpl. rewrite !bind_run, Hfh. destruct (h x w) as [[[]|e] w1]; auto.
Qed.

Lemma for_app {A} (xs ys : list A) (f : A → M unit) w :
  for_ (xs ++ ys) f w = (for_ xs f;; for_ ys f) w.
Proof.
  revert w. induction xs as [|x xs IH]; intros w.
  - simpl. rewrite bind_run. done.
  - simpl. rewrite !bind_run. destruct (f x w) as [[[]|e] w1]; [|done].
    rewrite IH. done.
Qed.

Lemma for_bind {A B} (xs : list A) (k : A → list B) (f : B → M unit) w :
  for_ (xs ≫= k) f w = for_ xs (λ x, for_ (k x) f) w.
Proof.
  revert w. induction xs as [|x xs IH]; intros w; [done|].
  simpl. rewrite for_app, !bind_run.
  destruct (for_ (k x) f w) as [[[]|e] w1]; auto.
Qed.

Lemma updates_iteration w : updates w = for_ (iteration w) visit w.
Proof.
  unfold updates, iteration. rewrite bind_run. simpl.
  rewrite for_bind. apply for_ext. intros G w1.
  rewrite for_bind. apply for_ext. intros p w2. simpl.
  rewrite bind_run. by destruct (update_param G p w2) as [[[]|e] w3].
Qed.

Lemma step_call_updates closure w :
  step (Val:=Val) closure w = (loss ← call closure; updates;; mret loss) w.
Proof. reflexivity. Qed.

Lemma update_param_absent G p w :
  grad (heap w !!! p) = None → update_param G p w = (Ok (), w).
Proof. intros Hg. unfold update_param. rewrite bind_run. simpl. by rewrite Hg. Qed.

Lemma update_param_sparse G p g w :
  grad (heap w !!! p) = Some g → is_sparse (heap w !!! g) = true →
  update_param G p w = (Raise RuntimeError, w).
Proof.
  intros Hg Hs. unfold update_param. rewrite bind_run. simpl. rewrite Hg.
  rewrite bind_run. simpl. by rewrite Hs.
Qed.

Lemma update_param_dense G p g w :
  grad (heap w !!! p) = Some g → is_sparse (heap w !!! g) = false →
  update_param G p w = (st ← state_of p; adam_update G p g st) w.
Proof.
  intros Hg Hs. unfold update_param. rewrite bind_run. simpl. rewrite Hg.
  rewrite bind_run. simpl. by rewrite Hs.
Qed.

Lemma state_of_old p st w :
  state (self w) !! p = Some st → state_of p w = (Ok st, w).
Proof. intros Hst. unfold state_of. rewrite bind_run. simpl. by rewrite Hst. Qed.

Lemma state_of_new p w :
  p < length (heap w) → state (self w) !! p = None →
  state_of p w = (Ok (fresh_state w), with_state p w).
Proof.
  intros Hp Hst. unfold state_of. rewrite bind_run. simpl. rewrite Hst.
  unfold zeros_like, with_state, fresh_state, zeros_for.
  rewrite !bind_run. simpl. rewrite lookup_total_app_l by done.
  unfold set_state, set_heap, mret, M_ret. simpl.
  rewrite length_app, Nat.add_1_r, <-app_assoc. done.
Qed.

(** *** One operation at a time *)

Lemma bind_ok {A B} (c : M A) (f : A → M B) w a w' :
  c w = (Ok a, w') → (c ≫= f) w = f a w'.
Proof. intros Hc. by rewrite bind_run, Hc. Qed.

Lemma read_run t w : read t w = (Ok (value_of w t), w).
Proof. by destruct t. Qed.

Lemma mul__run l s w :
  mul_ l s w = (Ok (), poke l (map (λ x, el_mul x s) (value_of w (Ref l))) w).
Proof. done. Qed.

Lemma add__run l t alpha w :
  add_ l t alpha w =
  (Ok (), poke l (zip_with (λ x y, el_add_alpha x alpha y)
                    (value_of w (Ref l)) (value_of w t)) w).
Proof. unfold add_. rewrite (bind_ok _ _ _ _ _ (read_run _ _)).
  by rewrite (bind_ok _ _ _ _ _ (read_run _ _)). Qed.

Lemma addcmul__run l t1 t2 value w :
  addcmul_ l t1 t2 value w =
  (Ok (), poke l (zip_with (λ x yz, el_addcmul x value yz.1 yz.2)
                    (value_of w (Ref l))
                    (zip (value_of w t1) (value_of w t2))) w).
Proof. unfold addcmul_. rewrite (bind_ok _ _ _ _ _ (read_run _ _)).
  rewrite (bind_ok _ _ _ _ _ (read_run _ _)).
  by rewrite (bind_ok _ _ _ _ _ (read_run _ _)). Qed.

Lemma div_scalar_run t s w :
  div_scalar t s w = (Ok (Tmp (map (λ x, el_div x s) (value_of w t))), w).
Proof. unfold div_scalar. by rewrite (bind_ok _ _ _ _ _ (read_run _ _)). Qed.

Lemma mul_scalar_run t s w :
  mul_scalar t s w = (Ok (Tmp (map (λ x, el_mul x s) (value_of w t))), w).
Proof. unfold mul_scalar. by rewrite (bind_ok _ _ _ _ _ (read_run _ _)). Qed.

Lemma add_scalar_run t s w :
  add_scalar t s w = (Ok (Tmp (map (λ x, el_add x s) (value_of w t))), w).
Proof. unfold add_scalar. by rewrite (bind_ok _ _ _ _ _ (read_run _ _)). Qed.

Lemma sqrt_run t w :
  sqrt t w = (Ok (Tmp (map el_sqrt (value_of w t))), w).
Proof. unfold sqrt. by rewrite (bind_ok _ _ _ _ _ (read_run _ _)). Qed.

Lemma divide_run t1 t2 w :
  divide t1 t2 w =
  (Ok (Tmp (zip_with el_divide (value_of w t1) (value_of w t2))), w).
Proof. unfold divide. rewrite (bind_ok _ _ _ _ _ (read_run _ _)).
  by rewrite (bind_ok _ _ _ _ _ (read_run _ _)). Qed.

Lemma value_of_poke_eq l xs w :
  l < length (heap w) → value_of (poke l xs w) (Ref l) = xs.
Proof.
  intros Hl. unfold value_of, poke. simpl.
  by rewrite list_lookup_total_alter_eq.
Qed.

Lemma value_of_poke_ne l l' xs w :
  l ≠ l' → value_of (poke l xs w) (Ref l') = value_of w (Ref l').
Proof.
  intros Hl. unfold value_of, poke. simpl.
  by rewrite list_lookup_total_alter_ne.
Qed.

Lemma value_of_set_state f l w :
  value_of (set_state f w) (Ref l) = value_of w (Ref l).
Proof. done. Qed.

Lemma length_heap_poke l xs w : length (heap (poke l xs w)) = length (heap w).
Proof. unfold poke. simpl. apply length_alter. Qed.

Lemma poke_poke l xs ys w : poke l xs (poke l ys w) = poke l xs w.
Proof.
  unfold poke, set_heap. simpl. f_equal.
  rewrite list_alter_alter_eq. by apply list_alter_ext.
Qed.

Lemma moment1_run beta1 a (xs ys : list E) :
  zip_with (λ x y, el_add_alpha x a y) (map (λ x, el_mul x beta1) xs) ys =
  zip_with (λ x y, el_add_alpha (el_mul x beta1) a y) xs ys.
Proof. apply zip_with_fmap_l. Qed.

Lemma moment2_run beta2 a (xs ys : list E) :
  zip_with (λ x yz, el_addcmul x a yz.1 yz.2)
    (map (λ x, el_mul x beta2) xs) (zip ys ys) =
  zip_with (λ x y, el_addcmul (el_mul x beta2) a y y) xs ys.
Proof. by rewrite zip_diag, zip_with_fmap_l, zip_with_fmap_r. Qed.

Ltac store_simpl :=
  repeat first
    [ rewrite poke_poke
    | rewrite value_of_poke_eq by (rewrite ?length_heap_poke; done)
    | rewrite value_of_poke_ne by done
    | rewrite value_of_set_state ].

Ltac run_op lem :=
  erewrite bind_ok by apply lem; cbv beta; store_simpl.

Lemma adam_update_run G p g st w :
  st_m st < length (heap w) → st_v st < length (heap w) →
  p < length (heap w) →
  st_m st ≠ st_v st → g ≠ st_m st → g ≠ st_v st →
  p ≠ st_m st → p ≠ st_v st →
  adam_update G p g st w = (Ok (), after_update G p g st w).
Proof.
  intros Hm Hv Hp Hmv Hgm Hgv Hpm Hpv.
  unfold adam_update.
  destruct (betas G) as [beta1 beta2] eqn:Hb.
  erewrite bind_ok by reflexivity.
  set (w0 := set_state _ w).
  assert (Hh : heap w0 = heap w) by done.
  rewrite <-Hh in Hm, Hv, Hp.
  run_op mul__run. run_op add__run. run_op mul__run. run_op addcmul__run.
  rewrite moment1_run, moment2_run.
  fold (moment1 beta1 (value_of w0 (Ref (st_m st))) (value_of w0 (Ref g))).
  fold (moment2 beta2 (value_of w0 (Ref (st_v st))) (value_of w0 (Ref g))).
  set (m' := moment1 _ _ _). set (v' := moment2 _ _ _).
  assert (Hfinal :
    after_update G p g st w =
    poke p (updated G (st_step st + 1) m' v' (value_of w0 (Ref p)))
      (poke (st_v st) v' (poke (st_m st) m' w0))).
  { unfold after_update. by rewrite Hb. }
  rewrite Hfinal. clear Hfinal.
  unfold updated, stepped, estimate, bias_corrected, delta, descend, decay.
  rewrite Hb. cbn [fst snd].
  destruct (correct_bias G).
  - erewrite bind_ok; cycle 1.
    { erewrite bind_ok by apply div_scalar_run.
      erewrite bind_ok by apply div_scalar_run. reflexivity. }
    store_simpl. cbn [fst snd].
    run_op mul_scalar_run. run_op sqrt_run. run_op add_scalar_run.
    run_op divide_run. run_op add__run. cbn [value_of].
    destruct (negb (weight_decay G =? 0)%float).
    + rewrite add__run. store_simpl. by rewrite zip_with_diag.
    + done.
  - erewrite bind_ok by reflexivity. cbn [fst snd].
    run_op mul_scalar_run. run_op sqrt_run. run_op add_scalar_run.
    run_op divide_run. run_op add__run. cbn [value_of].
    destruct (negb (weight_decay G =? 0)%float).
    + rewrite add__run. store_simpl. by rewrite zip_with_diag.
    + done.
Qed.

(** *** The state dict and its tensors *)

Lemma moment_locs_lookup (s : gmap loc State) q st :
  s !! q = Some st → st_m st ∈ moment_locs s ∧ st_v st ∈ moment_locs s.
Proof.
  intros Hq. unfold moment_locs.
  split; apply list_elem_of_bind; exists (q, st);
    (split; [simpl; rewrite !elem_of_cons; auto
            | by apply elem_of_map_to_list]).
Qed.

Lemma moment_locs_insert_new (s : gmap loc State) q st :
  s !! q = None →
  moment_locs (<[q := st]> s) ≡ₚ [st_m st; st_v st] ++ moment_locs s.
Proof.
  intros Hq. unfold moment_locs. by rewrite map_to_list_insert.
Qed.

Lemma moment_locs_delete (s : gmap loc State) q st :
  s !! q = Some st →
  moment_locs s ≡ₚ [st_m st; st_v st] ++ moment_locs (delete q s).
Proof.
  intros Hq. unfold moment_locs. by rewrite <-(map_to_list_delete s q st).
Qed.

Lemma moment_locs_insert_old (s : gmap loc State) q st st' :
  s !! q = Some st → st_m st' = st_m st → st_v st' = st_v st →
  moment_locs (<[q := st']> s) ≡ₚ moment_locs s.
Proof.
  intros Hq Hm Hv. rewrite (moment_locs_delete s q st) by done.
  rewrite <-insert_delete_eq, moment_locs_insert_new
    by apply lookup_delete_eq.
  by rewrite Hm, Hv.
Qed.

Lemma moment_locs_apart (s : gmap loc State) q st :
  NoDup (moment_locs s) → s !! q = Some st →
  st_m st ≠ st_v st ∧
  ∀ q' st', q' ≠ q → s !! q' = Some st' →
    st_m st' ≠ st_m st ∧ st_m st' ≠ st_v st ∧
    st_v st' ≠ st_m st ∧ st_v st' ≠ st_v st.
Proof.
  intros Hnd Hq. rewrite (moment_locs_delete s q st) in Hnd by done.
  apply NoDup_app in Hnd as (Hmv & Hrest & _).
  apply NoDup_cons in Hmv as [Hmv _].
  split; [by intros Heq; apply Hmv, elem_of_cons; left|].
  intros q' st' Hne Hq'.
  destruct (moment_locs_lookup (delete q s) q' st') as [Hm' Hv'].
  { by rewrite lookup_delete_ne. }
  assert (Hm : st_m st ∈ [st_m st; st_v st]) by (apply elem_of_cons; auto).
  assert (Hv : st_v st ∈ [st_m st; st_v st]).
  { apply elem_of_cons. right. apply elem_of_cons. auto. }
  pose proof (Hrest _ Hm). pose proof (Hrest _ Hv).
  split_and!; congruence.
Qed.

(** *** Well-formed worlds *)

Lemma iteration_groups w w' :
  param_groups (self w') = param_groups (self w) →
  iteration w' = iteration w.
Proof. unfold iteration. by intros ->. Qed.

Lemma all_params_groups w w' :
  param_groups (self w') = param_groups (self w) →
  all_params w' = all_params w.
Proof. unfold all_params. by intros ->%iteration_groups. Qed.

Lemma wf_param w p : wf w → p ∈ all_params w → p < length (heap w).
Proof. intros (Hp & _) Hin. by eapply Forall_forall in Hp. Qed.

Lemma wf_moment w q st :
  wf w → state (self w) !! q = Some st →
  st_m st < length (heap w) ∧ st_v st < length (heap w) ∧
  st_m st ∉ all_params w ∧ st_v st ∉ all_params w ∧
  st_m st ≠ st_v st.
Proof.
  intros (_ & Hmo & Hnd & _) Hq.
  destruct (moment_locs_lookup _ _ _ Hq) as [Hm Hv].
  rewrite Forall_forall in Hmo.
  destruct (Hmo _ Hm), (Hmo _ Hv).
  destruct (moment_locs_apart _ _ _ Hnd Hq) as [? _]. done.
Qed.

Lemma wf_grad w p g :
  wf w → p ∈ all_params w → grad (heap w !!! p) = Some g →
  g < length (heap w) ∧ g ∉ all_params w ∧
  ∀ q st, state (self w) !! q = Some st → g ≠ st_m st ∧ g ≠ st_v st.
Proof.
  intros (_ & _ & _ & Hgr & _) Hin Hg.
  rewrite Forall_forall in Hgr. specialize (Hgr _ Hin).
  unfold grad_ok in Hgr. rewrite Hg in Hgr.
  destruct Hgr as (? & ? & Hno & _).
  split_and!; [done..|]. intros q st Hq.
  destruct (moment_locs_lookup _ _ _ Hq). split; by intros ->.
Qed.

Lemma wf_grad_shape w p g :
  wf w → p ∈ all_params w → grad (heap w !!! p) = Some g →
  length (values w g) = length (values w p).
Proof.
  intros (_ & _ & _ & Hgr & _) Hin Hg.
  rewrite Forall_forall in Hgr. specialize (Hgr _ Hin).
  unfold grad_ok in Hgr. rewrite Hg in Hgr. by destruct Hgr as (_ & _ & _ & ?).
Qed.

Lemma wf_shape w q st :
  wf w → state (self w) !! q = Some st → shape_ok w q st.
Proof. intros (_ & _ & _ & _ & Hsh) Hq. by apply (Hsh q). Qed.

Lemma evolves_refl w : evolves w w.
Proof. by split_and!. Qed.

Lemma evolves_trans w1 w2 w3 : evolves w1 w2 → evolves w2 w3 → evolves w1 w3.
Proof.
  intros (Hg1 & Hl1 & Ha1) (Hg2 & Hl2 & Ha2). split_and!.
  - congruence.
  - lia.
  - intros l Hl. destruct (Ha1 l Hl) as (<- & <- & <-). apply Ha2. lia.
Qed.

(** Shapes are kept along [evolves] by the entries whose tensors were
    there before. *)
Lemma shape_ok_evolves w w' q st :
  evolves w w' → shape_ok w q st →
  st_m st < length (heap w) → st_v st < length (heap w) →
  shape_ok w' q st.
Proof.
  intros (_ & Hlen & Hattr) (Hq & Hm & Hv) Hlm Hlv.
  destruct (Hattr q Hq) as (_ & _ & Hq').
  destruct (Hattr _ Hlm) as (_ & _ & Hm').
  destruct (Hattr _ Hlv) as (_ & _ & Hv').
  split_and!; [lia|congruence..].
Qed.

Lemma wf_evolves w w' new :
  wf w → evolves w w' →
  moment_locs (state (self w')) ≡ₚ new ++ moment_locs (state (self w)) →
  NoDup new →
  Forall (λ l, length (heap w) ≤ l < length (heap w')) new →
  map_Forall (shape_ok w') (state (self w')) →
  wf w'.
Proof.
  intros Hwf (Hgr & Hlen & Hattr) Hperm Hnd Hnew Hshape.
  pose proof Hwf as (Hp & Hmo & Hndo & Hg & _).
  rewrite Forall_forall in Hp, Hmo, Hg, Hnew.
  unfold wf. rewrite (all_params_groups w w') by done.
  split_and!.
  - apply Forall_forall. intros p Hin. specialize (Hp p Hin). lia.
  - rewrite Hperm. apply Forall_app. split; apply Forall_forall.
    + intros l Hl. specialize (Hnew l Hl). split; [lia|].
      intros Hin. specialize (Hp l Hin). lia.
    + intros l Hl. destruct (Hmo l Hl). split; [lia|done].
  - rewrite Hperm. apply NoDup_app. split_and!; [done| |done].
    intros l Hl Hl'. specialize (Hnew l Hl). destruct (Hmo l Hl'). lia.
  - apply Forall_forall. intros p Hin. specialize (Hg p Hin).
    specialize (Hp p Hin). unfold grad_ok in *.
    destruct (Hattr p Hp) as (-> & _ & Hlp).
    destruct (grad (heap w !!! p)) as [g|]; [|done].
    destruct Hg as (Hgl & Hgp & Hgm & Hgs).
    destruct (Hattr g Hgl) as (_ & _ & Hlg).
    rewrite (all_params_groups w w') by done.
    split_and!; [lia|done| |congruence].
    rewrite Hperm. intros [Hin'|Hin']%elem_of_app; [|done].
    specialize (Hnew g Hin'). lia.
  - done.
Qed.

(** *** What one visit does to the store *)

Lemma attrs_alter (xs : list E) i (h : list Tensor) l :
  grad (alter (set_elems xs) i h !!! l) = grad (h !!! l) ∧
  is_sparse (alter (set_elems xs) i h !!! l) = is_sparse (h !!! l).
Proof.
  rewrite list_lookup_total_alter. case_decide as Hd; [|done].
  destruct Hd as [-> _]. done.
Qed.

Lemma grad_alter (xs : list E) i (h : list Tensor) l :
  grad (alter (set_elems xs) i h !!! l) = grad (h !!! l).
Proof. apply attrs_alter. Qed.

Lemma is_sparse_alter (xs : list E) i (h : list Tensor) l :
  is_sparse (alter (set_elems xs) i h !!! l) = is_sparse (h !!! l).
Proof. apply attrs_alter. Qed.

Lemma after_update_frame G q g st w l :
  l ≠ q → l ≠ st_m st → l ≠ st_v st →
  heap (after_update G q g st w) !! l = heap w !! l.
Proof.
  intros. unfold after_update. simpl.
  by rewrite !list_lookup_alter_ne.
Qed.

Lemma after_update_state G q g st w :
  state (self (after_update G q g st w)) =
  <[q := {| st_step := st_step st + 1; st_m := st_m st; st_v := st_v st |}]>
    (state (self w)).
Proof. done. Qed.

Lemma lookup_total_same (h h' : list (@Tensor E)) l :
  h' !! l = h !! l → h' !!! l = h !!! l.
Proof. intros Heq. by rewrite !list_lookup_total_alt, Heq. Qed.

Lemma after_update_values G q g st w :
  st_m st < length (heap w) → st_v st < length (heap w) →
  q < length (heap w) →
  st_m st ≠ st_v st → q ≠ st_m st → q ≠ st_v st →
  let w' := after_update G q g st w in
  let m' := moment1 (betas G).1 (values w (st_m st)) (values w g) in
  let v' := moment2 (betas G).2 (values w (st_v st)) (values w g) in
  values w' (st_m st) = m' ∧ values w' (st_v st) = v' ∧
  values w' q = updated G (st_step st + 1) m' v' (values w q).
Proof.
  intros Hm Hv Hq Hmv Hqm Hqv w' m' v'. unfold w', values.
  unfold after_update. simpl. fold (values w). fold m' v'.
  rewrite (list_lookup_total_alter_ne _ _ q (st_m st)) by done.
  rewrite (list_lookup_total_alter_ne _ _ q (st_v st)) by done.
  rewrite (list_lookup_total_alter_ne _ _ (st_v st) (st_m st)) by done.
  rewrite !list_lookup_total_alter_eq by (rewrite ?length_alter; done).
  done.
Qed.

Lemma length_moment1 beta (xs ys : list E) :
  length ys = length xs → length (moment1 beta xs ys) = length xs.
Proof. intros. unfold moment1. by rewrite length_zip_with_l_eq. Qed.

Lemma length_moment2 beta (xs ys : list E) :
  length ys = length xs → length (moment2 beta xs ys) = length xs.
Proof. intros. unfold moment2. by rewrite length_zip_with_l_eq. Qed.

Lemma length_delta lr eps (ms vs : list E) :
  length vs = length ms → length (delta lr eps ms vs) = length ms.
Proof.
  intros. unfold delta.
  rewrite length_zip_with_l_eq; rewrite !length_fmap; done.
Qed.

Lemma length_estimate cb beta t (xs : list E) :
  length (estimate cb beta t xs) = length xs.
Proof.
  unfold estimate, bias_corrected. destruct cb; by rewrite ?length_fmap.
Qed.

Lemma length_updated G t (ms vs ps : list E) :
  length ms = length ps → length vs = length ps →
  length (updated G t ms vs ps) = length ps.
Proof.
  intros Hm Hv.
  assert (length (stepped G t ms vs ps) = length ps) as Hs.
  { unfold stepped, descend. rewrite length_zip_with_l_eq; [done|].
    rewrite length_delta; rewrite !length_estimate; congruence. }
  unfold updated, decay. destruct (negb _); by rewrite ?length_fmap.
Qed.

(** The hypotheses of [adam_update_run], from the invariant. *)
Lemma wf_apart w q g st :
  wf w → q ∈ all_params w → state (self w) !! q = Some st →
  grad (heap w !!! q) = Some g →
  st_m st < length (heap w) ∧ st_v st < length (heap w) ∧
  q < length (heap w) ∧
  st_m st ≠ st_v st ∧ g ≠ st_m st ∧ g ≠ st_v st ∧
  q ≠ st_m st ∧ q ≠ st_v st.
Proof.
  intros Hwf Hq Hst Hg.
  destruct (wf_moment _ _ _ Hwf Hst) as (? & ? & Hmp & Hvp & ?).
  destruct (wf_grad _ _ _ Hwf Hq Hg) as (_ & _ & Hgm).
  destruct (Hgm _ _ Hst).
  split_and!; try done; [by apply wf_param|by intros ->..].
Qed.

Lemma after_update_evolves G q g st w :
  wf w → q ∈ all_params w → state (self w) !! q = Some st →
  grad (heap w !!! q) = Some g →
  evolves w (after_update G q g st w).
Proof.
  intros Hwf Hq Hst Hg.
  destruct (wf_apart _ _ _ _ Hwf Hq Hst Hg)
    as (Hlm & Hlv & Hlq & Hmv & _ & _ & Hqm & Hqv).
  destruct (wf_shape _ _ _ Hwf Hst) as (_ & Hsm & Hsv).
  pose proof (wf_grad_shape _ _ _ Hwf Hq Hg) as Hsg.
  destruct (after_update_values G q g st w) as (Hm' & Hv' & Hq'); try done.
  split_and!.
  - done.
  - unfold after_update. simpl. by rewrite !length_alter.
  - intros l _. split_and!.
    + unfold after_update. simpl. by rewrite !grad_alter.
    + unfold after_update. simpl. by rewrite !is_sparse_alter.
    + destruct (decide (l = q)) as [->|Hnq].
      { rewrite Hq'. apply length_updated.
        - rewrite length_moment1; congruence.
        - rewrite length_moment2; congruence. }
      destruct (decide (l = st_m st)) as [->|Hnm].
      { rewrite Hm'. apply length_moment1. congruence. }
      destruct (decide (l = st_v st)) as [->|Hnv].
      { rewrite Hv'. apply length_moment2. congruence. }
      unfold values.
      by rewrite (lookup_total_same _ _ l (after_update_frame G q g st w l
                                             Hnq Hnm Hnv)).
Qed.

Lemma after_update_wf G q g st w :
  wf w → q ∈ all_params w → state (self w) !! q = Some st →
  grad (heap w !!! q) = Some g →
  wf (after_update G q g st w).
Proof.
  intros Hwf Hq Hst Hg.
  pose proof (after_update_evolves G q g st w Hwf Hq Hst Hg) as Hev.
  apply (wf_evolves w _ []); [done|done| |constructor..|].
  - rewrite after_update_state. simpl.
    by apply (moment_locs_insert_old _ _ st).
  - rewrite after_update_state. intros p st' Hp.
    destruct (decide (p = q)) as [->|Hne].
    + rewrite lookup_insert_eq in Hp. injection Hp as <-.
      destruct (wf_moment _ _ _ Hwf Hst) as (? & ? & _).
      by apply (shape_ok_evolves w _ q st); [|apply wf_shape|..].
    + rewrite lookup_insert_ne in Hp by done.
      destruct (wf_moment _ _ _ Hwf Hp) as (? & ? & _).
      by apply (shape_ok_evolves w); [|apply wf_shape|..].
Qed.

Lemma with_state_evolves q w : evolves w (with_state q w).
Proof.
  unfold with_state. split_and!; simpl.
  - done.
  - rewrite length_app. lia.
  - intros l Hl. unfold values. simpl. by rewrite lookup_total_app_l.
Qed.

Lemma with_state_frame q w l :
  l < length (heap w) → heap (with_state q w) !! l = heap w !! l.
Proof. intros. unfold with_state. simpl. by rewrite lookup_app_l. Qed.

Lemma with_state_total q w l :
  l < length (heap w) → heap (with_state q w) !!! l = heap w !!! l.
Proof. intros. unfold with_state. simpl. by rewrite lookup_total_app_l. Qed.

Lemma with_state_moments q w :
  heap (with_state q w) !!! length (heap w) = zeros_for w q ∧
  heap (with_state q w) !!! S (length (heap w)) = zeros_for w q.
Proof.
  unfold with_state. simpl. split.
  - by apply list_lookup_total_middle.
  - rewrite (app_assoc _ [_] [_] : heap w ++ [_; _] = (heap w ++ [_]) ++ [_]).
    apply list_lookup_total_middle. rewrite length_app. simpl. lia.
Qed.

Lemma values_with_state_old q w l :
  l < length (heap w) → values (with_state q w) l = values w l.
Proof. intros. unfold values. by rewrite with_state_total. Qed.

Lemma values_with_state_new q w :
  values (with_state q w) (length (heap w)) =
    replicate (length (values w q)) el_zero ∧
  values (with_state q w) (S (length (heap w))) =
    replicate (length (values w q)) el_zero.
Proof.
  unfold values. destruct (with_state_moments q w) as [-> ->]. done.
Qed.

Lemma with_state_wf q w :
  wf w → q ∈ all_params w → state (self w) !! q = None →
  wf (with_state q w).
Proof.
  intros Hwf Hin Hq. pose proof (wf_param _ _ Hwf Hin) as Hlt.
  pose proof (with_state_evolves q w) as Hev.
  apply (wf_evolves w _ [length (heap w); S (length (heap w))]); [done..| | | |].
  - unfold with_state. simpl. by rewrite moment_locs_insert_new.
  - apply NoDup_cons. split; [|apply NoDup_singleton].
    rewrite list_elem_of_singleton. lia.
  - unfold with_state. simpl. rewrite length_app. simpl.
    repeat constructor; lia.
  - intros p st Hp.
    destruct (decide (p = q)) as [->|Hne].
    + unfold with_state in Hp. simpl in Hp.
      rewrite lookup_insert_eq in Hp. injection Hp as <-.
      destruct (values_with_state_new q w) as [Hm Hv].
      unfold shape_ok, fresh_state. cbn [st_m st_v].
      rewrite Hm, Hv, values_with_state_old by done.
      rewrite length_replicate. split_and!; [|done..].
      destruct Hev as (_ & ? & _). lia.
    + unfold with_state in Hp. simpl in Hp.
      rewrite lookup_insert_ne in Hp by done.
      destruct (wf_moment _ _ _ Hwf Hp) as (? & ? & _).
      by apply (shape_ok_evolves w); [|apply wf_shape|..].
Qed.

(** The four ways a visit can go. *)
Lemma visit_cases G q w :
  wf w → q ∈ all_params w →
  (grad (heap w !!! q) = None ∧ update_param G q w = (Ok (), w)) ∨
  (∃ g, grad (heap w !!! q) = Some g ∧ is_sparse (heap w !!! g) = true ∧
        update_param G q w = (Raise RuntimeError, w)) ∨
  (∃ g st, grad (heap w !!! q) = Some g ∧ is_sparse (heap w !!! g) = false ∧
        state (self w) !! q = Some st ∧
        update_param G q w = (Ok (), after_update G q g st w)) ∨
  (∃ g, grad (heap w !!! q) = Some g ∧ is_sparse (heap w !!! g) = false ∧
        state (self w) !! q = None ∧
        update_param G q w =
          (Ok (), after_update G q g (fresh_state w) (with_state q w))).
Proof.
  intros Hwf Hq. pose proof (wf_param _ _ Hwf Hq) as Hlt.
  destruct (grad (heap w !!! q)) as [g|] eqn:Hg;
    [|left; by rewrite update_param_absent].
  right. destruct (wf_grad _ _ _ Hwf Hq Hg) as (Hgl & _ & Hgm).
  destruct (is_sparse (heap w !!! g)) eqn:Hs.
  { left. exists g. by rewrite (update_param_sparse _ _ g). }
  right. rewrite (update_param_dense _ _ g) by done.
  destruct (state (self w) !! q) as [st|] eqn:Hst.
  - left. exists g, st. split_and!; [done..|].
    erewrite bind_ok by by apply state_of_old.
    destruct (wf_moment _ _ _ Hwf Hst) as (? & ? & Hmp & Hvp & ?).
    destruct (Hgm _ _ Hst).
    apply adam_update_run; try done; by intros ->.
  - right. exists g. split_and!; [done..|].
    erewrite bind_ok by by apply state_of_new.
    assert (length (heap (with_state q w)) = S (S (length (heap w)))) as Hl.
    { unfold with_state. simpl. rewrite length_app. simpl. lia. }
    apply adam_update_run; rewrite ?Hl; simpl; lia.
Qed.

(** A visit keeps the world well formed and writes nowhere but to the
    parameter and the two tensors of its state. *)
Lemma visit_frame G q w r w' :
  wf w → q ∈ all_params w → update_param G q w = (r, w') →
  wf w' ∧ evolves w w' ∧
  (∀ p, p ≠ q → state (self w') !! p = state (self w) !! p) ∧
  (∀ l, l < length (heap w) → l ≠ q →
        (∀ st, state (self w) !! q = Some st → l ≠ st_m st ∧ l ≠ st_v st) →
        heap w' !! l = heap w !! l).
Proof.
  intros Hwf Hq Hrun.
  destruct (visit_cases G q w Hwf Hq)
    as [[_ Hr]|[(g & _ & _ & Hr)|[(g & st & Hg & _ & Hst & Hr)
       |(g & Hg & _ & Hst & Hr)]]];
    rewrite Hr in Hrun; injection Hrun as <- <-.
  - split_and!; [done|apply evolves_refl|done..].
  - split_and!; [done|apply evolves_refl|done..].
  - split_and!.
    + by apply after_update_wf.
    + by apply after_update_evolves.
    + intros p Hp. rewrite after_update_state. by rewrite lookup_insert_ne.
    + intros l _ Hlq Hl. destruct (Hl _ Hst).
      by apply after_update_frame.
  - pose proof (with_state_wf q w Hwf Hq Hst) as Hwf1.
    pose proof (wf_param _ _ Hwf Hq) as Hlt.
    assert (Hq1 : q ∈ all_params (with_state q w)) by done.
    assert (Hst1 : state (self (with_state q w)) !! q = Some (fresh_state w))
      by apply lookup_insert_eq.
    assert (Hg1 : grad (heap (with_state q w) !!! q) = Some g)
      by by rewrite with_state_total.
    split_and!.
    + by apply after_update_wf.
    + eapply evolves_trans;
        [apply with_state_evolves|by apply after_update_evolves].
    + intros p Hp. rewrite after_update_state. unfold with_state. simpl.
      by rewrite !lookup_insert_ne.
    + intros l Hl Hlq _.
      rewrite after_update_frame by (simpl; lia).
      by apply with_state_frame.
Qed.

(** A visit of a parameter with a dense gradient: one Adam update. *)
Lemma visit_dense G q g w :
  wf w → q ∈ all_params w →
  grad (heap w !!! q) = Some g → is_sparse (heap w !!! g) = false →
  ∃ w' st',
    update_param G q w = (Ok (), w') ∧
    state (self w') !! q = Some st' ∧
    match state (self w) !! q with
    | Some st => st_m st' = st_m st ∧ st_v st' = st_v st
    | None => st_m st' = length (heap w) ∧ st_v st' = S (length (heap w))
    end ∧
    let m' := moment1 (betas G).1 (first_moment w q) (values w g) in
    let v' := moment2 (betas G).2 (second_moment w q) (values w g) in
    step_count w' q = (step_count w q + 1)%Z ∧
    first_moment w' q = m' ∧ second_moment w' q = v' ∧
    values w' q = updated G (step_count w q + 1) m' v' (values w q).
Proof.
  intros Hwf Hq Hg Hs. pose proof (wf_param _ _ Hwf Hq) as Hlt.
  destruct (wf_grad _ _ _ Hwf Hq Hg) as (Hgl & _ & Hgm).
  destruct (visit_cases G q w Hwf Hq)
    as [[Hn _]|[(g' & Hg' & Hs' & _)|[(g' & st & Hg' & _ & Hst & Hr)
       |(g' & Hg' & _ & Hst & Hr)]]]; try congruence.
  - assert (g' = g) as -> by congruence.
    destruct (wf_moment _ _ _ Hwf Hst) as (? & ? & Hmp & Hvp & ?).
    eexists _, _. split; [exact Hr|].
    rewrite after_update_state, lookup_insert_eq.
    split; [done|]. unfold step_count, first_moment, second_moment.
    rewrite after_update_state, lookup_insert_eq, Hst. simpl.
    split; [done|].
    destruct (after_update_values G q g st w) as (-> & -> & ->);
      try done; by intros ->.
  - assert (g' = g) as -> by congruence.
    eexists _, _. split; [exact Hr|].
    rewrite after_update_state, lookup_insert_eq.
    split; [done|]. unfold step_count, first_moment, second_moment.
    rewrite after_update_state, lookup_insert_eq, Hst. simpl.
    split; [done|].
    assert (length (heap (with_state q w)) = S (S (length (heap w)))) as Hl.
    { unfold with_state. simpl. rewrite length_app. simpl. lia. }
    pose proof (after_update_values G q g (fresh_state w) (with_state q w))
      as Hval. rewrite Hl in Hval. simpl in Hval.
    destruct Hval as (-> & -> & ->); try lia.
    destruct (values_with_state_new q w) as [-> ->].
    by rewrite !values_with_state_old by done.
Qed.

(** *** What the visits of the other parameters leave alone *)

Lemma same_view_refl w p : same_view w w p.
Proof. by split. Qed.

Lemma same_view_owned w w' p l :
  same_view w w' p → owned_by w' p l ↔ owned_by w p l.
Proof.
  intros [Hst Hown]. unfold owned_by. rewrite Hst.
  rewrite (lookup_total_same (heap w) (heap w') p); [done|].
  apply Hown. by left.
Qed.

Lemma same_view_trans w1 w2 w3 p :
  same_view w1 w2 p → same_view w2 w3 p → same_view w1 w3 p.
Proof.
  intros H12 H23. pose proof H12 as [Hs12 Ho12]. destruct H23 as [Hs23 Ho23].
  split; [congruence|]. intros l Hl.
  rewrite Ho23, Ho12; [done..|]. by apply (same_view_owned w1 w2).
Qed.

Lemma same_view_values w w' p :
  same_view w w' p →
  step_count w' p = step_count w p ∧
  first_moment w' p = first_moment w p ∧
  second_moment w' p = second_moment w p ∧
  values w' p = values w p ∧
  grad (heap w' !!! p) = grad (heap w !!! p) ∧
  ∀ g, grad (heap w !!! p) = Some g →
    values w' g = values w g ∧
    is_sparse (heap w' !!! g) = is_sparse (heap w !!! g).
Proof.
  intros [Hst Hown].
  assert (Hp : heap w' !!! p = heap w !!! p).
  { apply lookup_total_same, Hown. by left. }
  unfold step_count, first_moment, second_moment, values.
  rewrite Hst, Hp. split_and!; try done.
  - destruct (state (self w) !! p) as [st|] eqn:Hq; [|done].
    rewrite (lookup_total_same (heap w) (heap w') (st_m st)); [done|].
    apply Hown. right. right. eauto.
  - destruct (state (self w) !! p) as [st|] eqn:Hq; [|done].
    rewrite (lookup_total_same (heap w) (heap w') (st_v st)); [done|].
    apply Hown. right. right. eauto.
  - intros g Hg.
    rewrite (lookup_total_same (heap w) (heap w') g); [done|].
    apply Hown. right. by left.
Qed.

Lemma visit_other G p q w r w' :
  wf w → p ∈ all_params w → q ∈ all_params w → p ≠ q →
  update_param G q w = (r, w') → same_view w w' p.
Proof.
  intros Hwf Hp Hq Hpq Hrun.
  destruct (visit_frame G q w r w' Hwf Hq Hrun) as (_ & _ & Hst & Hfr).
  split; [by apply Hst|].
  intros l [->|[Hg|(st & Hs & Hl)]].
  - apply Hfr; [by apply wf_param|done|].
    intros st' Hs'. destruct (wf_moment _ _ _ Hwf Hs') as (_ & _ & ? & ? & _).
    split; by intros ->.
  - destruct (wf_grad _ _ _ Hwf Hp Hg) as (? & ? & Hgm).
    apply Hfr; [done|by intros ->|]. intros st' Hs'. by apply (Hgm q).
  - destruct (wf_moment _ _ _ Hwf Hs) as (? & ? & ? & ? & _).
    destruct Hwf as (_ & _ & Hnd & _).
    destruct (moment_locs_apart _ _ _ Hnd Hs) as [_ Hap].
    apply Hfr.
    + destruct Hl as [-> | ->]; done.
    + destruct Hl as [-> | ->]; by intros <-.
    + intros st' Hs'. destruct (Hap q st') as (? & ? & ? & ?); [done..|].
      destruct Hl as [-> | ->]; done.
Qed.

Lemma dense_or_absent_evolves w w' q :
  wf w → evolves w w' → q ∈ all_params w →
  dense_or_absent w q → dense_or_absent w' q.
Proof.
  intros Hwf (_ & _ & Hattr) Hq. unfold dense_or_absent.
  destruct (Hattr q (wf_param _ _ Hwf Hq)) as [-> _].
  destruct (grad (heap w !!! q)) as [g|] eqn:Hg; [|done].
  destruct (wf_grad _ _ _ Hwf Hq Hg) as (Hgl & _).
  by destruct (Hattr g Hgl) as (_ & -> & _).
Qed.

(** The visits of a list of pairs: the world stays well formed, and a
    parameter that is not visited, or has no gradient, keeps what it
    owns. *)
Lemma for_frame xs p w r w' :
  wf w → p ∈ all_params w →
  Forall (λ x, x.2 ∈ all_params w) xs →
  p ∉ xs.*2 ∨ grad (heap w !!! p) = None →
  for_ xs visit w = (r, w') →
  wf w' ∧ evolves w w' ∧ same_view w w' p.
Proof.
  revert w. induction xs as [|[G q] xs IH]; intros w Hwf Hp Hxs Hskip Hrun.
  { injection Hrun as <- <-.
    split_and!; [done|apply evolves_refl|apply same_view_refl]. }
  apply Forall_cons in Hxs as [Hq Hxs]. simpl in Hq.
  simpl in Hrun. rewrite bind_run in Hrun.
  destruct (update_param G q w) as [r1 w1] eqn:Hvisit.
  destruct (visit_frame G q w r1 w1 Hwf Hq Hvisit) as (Hwf1 & Hev1 & _).
  assert (Hview1 : same_view w w1 p).
  { destruct (decide (p = q)) as [->|Hne].
    - destruct Hskip as [Hnot|Hnone].
      + exfalso. apply Hnot. simpl. by left.
      + rewrite update_param_absent in Hvisit by done.
        injection Hvisit as <- <-. apply same_view_refl.
    - by eapply visit_other. }
  destruct r1 as [[]|e].
  - pose proof Hev1 as (Hgr1 & _).
    destruct (IH w1) as (Hwf' & Hev' & Hview'); try done.
    + by rewrite (all_params_groups w w1).
    + by rewrite (all_params_groups w w1).
    + destruct Hskip as [Hnot|Hnone].
      * left. intros Hin. apply Hnot. simpl. by right.
      * right. destruct (same_view_values _ _ _ Hview1) as (_&_&_&_& -> &_).
        done.
    + split_and!; [done|by eapply evolves_trans|by eapply same_view_trans].
  - injection Hrun as <- <-. done.
Qed.

Lemma for_wf xs w r w' :
  wf w →
  Forall (λ x, x.2 ∈ all_params w) xs →
  for_ xs visit w = (r, w') →
  wf w' ∧ evolves w w'.
Proof.
  revert w. induction xs as [|[G q] xs IH]; intros w Hwf Hxs Hrun.
  { injection Hrun as <- <-. split; [done|apply evolves_refl]. }
  apply Forall_cons in Hxs as [Hq Hxs]. simpl in Hq, Hrun.
  rewrite bind_run in Hrun.
  destruct (update_param G q w) as [r1 w1] eqn:Hvisit.
  destruct (visit_frame G q w r1 w1 Hwf Hq Hvisit) as (Hwf1 & Hev1 & _).
  destruct r1 as [[]|e]; [|by injection Hrun as <- <-].
  pose proof Hev1 as (Hgr1 & _).
  destruct (IH w1) as [Hwf' Hev']; [done| |done|].
  { by rewrite (all_params_groups w w1). }
  split; [done|by eapply evolves_trans].
Qed.

(** Visits of parameters with dense gradients or none do not raise. *)
Lemma for_ok xs w r w' :
  wf w →
  Forall (λ x, x.2 ∈ all_params w ∧ dense_or_absent w x.2) xs →
  for_ xs visit w = (r, w') → r = Ok ().
Proof.
  revert w. induction xs as [|[G q] xs IH]; intros w Hwf Hxs Hrun.
  { by injection Hrun as <- <-. }
  apply Forall_cons in Hxs as [[Hq Hd] Hxs]. simpl in Hq, Hd.
  simpl in Hrun. rewrite bind_run in Hrun.
  destruct (update_param G q w) as [r1 w1] eqn:Hvisit.
  destruct (visit_frame G q w r1 w1 Hwf Hq Hvisit) as (Hwf1 & Hev1 & _).
  destruct r1 as [[]|e].
  - apply (IH w1); [done| |done].
    eapply Forall_impl; [exact Hxs|]. intros [G' q'] [Hq' Hd']. simpl in *.
    pose proof Hev1 as (Hgr1 & _).
    split; [by rewrite (all_params_groups w w1)|].
    by apply (dense_or_absent_evolves w).
  - exfalso.
    destruct (visit_cases G q w Hwf Hq)
      as [[_ Hr]|[(g & Hg & Hs & _)|[(g & st & _ & _ & _ & Hr)
         |(g & _ & _ & _ & Hr)]]]; try congruence.
    unfold dense_or_absent in Hd. rewrite Hg in Hd. congruence.
Qed.

(** *** The loops of [step] *)

Lemma iteration_params w xs :
  xs ⊆ iteration w → Forall (λ x, x.2 ∈ all_params w) xs.
Proof.
  intros Hsub. apply Forall_forall. intros x Hx.
  unfold all_params. apply list_elem_of_fmap_2. by apply Hsub.
Qed.

Lemma iteration_split w pre x post :
  iteration w = pre ++ x :: post →
  Forall (λ y, y.2 ∈ all_params w) pre ∧ x.2 ∈ all_params w ∧
  Forall (λ y, y.2 ∈ all_params w) post.
Proof.
  intros Hit. split_and!.
  - apply iteration_params. rewrite Hit. intros y Hy.
    apply elem_of_app. by left.
  - unfold all_params. apply list_elem_of_fmap_2. rewrite Hit.
    apply elem_of_app. right. by left.
  - apply iteration_params. rewrite Hit. intros y Hy.
    apply elem_of_app. right. by right.
Qed.

(** The parameter [p] is visited once, it is reached, and its gradient
    is dense: whatever happens afterwards, it has had one Adam update. *)
Lemma visits_dense w G p g pre post r w' :
  wf w →
  Forall (λ x, x.2 ∈ all_params w) (pre ++ (G, p) :: post) →
  p ∉ pre.*2 → p ∉ post.*2 →
  Forall (λ x, dense_or_absent w x.2) pre →
  grad (heap w !!! p) = Some g → is_sparse (heap w !!! g) = false →
  for_ (pre ++ (G, p) :: post) visit w = (r, w') →
  wf w' ∧ evolves w w' ∧
  (∃ st', state (self w') !! p = Some st' ∧
     match state (self w) !! p with
     | Some st => st_m st' = st_m st ∧ st_v st' = st_v st
     | None => length (heap w) ≤ st_m st' ∧ length (heap w) ≤ st_v st'
     end) ∧
  let m' := moment1 (betas G).1 (first_moment w p) (values w g) in
  let v' := moment2 (betas G).2 (second_moment w p) (values w g) in
  step_count w' p = (step_count w p + 1)%Z ∧
  first_moment w' p = m' ∧ second_moment w' p = v' ∧
  values w' p = updated G (step_count w p + 1) m' v' (values w p).
Proof.
  intros Hwf Hall Hpre Hpost Hdense Hg Hs Hrun.
  apply Forall_app in Hall as [Hin1 Hall].
  apply Forall_cons in Hall as [Hp Hin2]. simpl in Hp.
  rewrite for_app, bind_run in Hrun.
  destruct (for_ pre visit w) as [r1 w1] eqn:Hrun1.
  assert (r1 = Ok ()) as ->.
  { apply (for_ok pre w _ w1); [done| |done].
    apply Forall_forall. intros x Hx. rewrite Forall_forall in Hin1, Hdense.
    auto. }
  destruct (for_frame pre p w (Ok ()) w1) as (Hwf1 & Hev1 & Hview1); auto.
  destruct (same_view_values _ _ _ Hview1)
    as (Hc1 & Hm1 & Hv1 & Hp1 & Hg1 & Hgv1).
  destruct (Hgv1 g Hg) as [Hgval1 Hgs1].
  pose proof Hev1 as (Hgr1 & Hlen1 & _).
  simpl in Hrun. rewrite bind_run in Hrun.
  destruct (visit_dense G p g w1) as (w2 & st' & Hvisit & Hst2 & Hlocs & Hres);
    [done|by rewrite (all_params_groups w w1)|congruence..|].
  rewrite Hvisit in Hrun. cbv beta in Hres.
  destruct Hres as (Hc2 & Hm2 & Hv2 & Hp2).
  destruct (visit_frame G p w1 (Ok ()) w2 Hwf1) as (Hwf2 & Hev2 & _);
    [by rewrite (all_params_groups w w1)|done|].
  pose proof Hev2 as (Hgr2 & _).
  destruct (for_frame post p w2 r w') as (Hwf' & Hev' & Hview'); auto.
  { rewrite (all_params_groups w1 w2), (all_params_groups w w1); done. }
  { rewrite (all_params_groups w1 w2), (all_params_groups w w1); done. }
  destruct (same_view_values _ _ _ Hview') as (Hc' & Hm' & Hv' & Hp' & _).
  split_and!.
  - done.
  - eauto using evolves_trans.
  - exists st'. destruct Hview' as [-> _]. split; [done|].
    destruct Hview1 as [Hst1 _]. rewrite Hst1 in Hlocs.
    destruct (state (self w) !! p); [done|]. lia.
  - cbv zeta.
    rewrite Hc', Hm', Hv', Hp', Hc2, Hm2, Hv2, Hp2, Hc1, Hm1, Hv1, Hp1,
      Hgval1.
    done.
Qed.

(** *** [step] as a whole *)

Lemma step_run (closure : option (M (option Val))) w0 :
  step closure w0 =
  match call closure w0 with
  | (Ok loss, w) =>
      match updates w with
      | (Ok _, w') => (Ok loss, w')
      | (Raise e, w') => (Raise e, w')
      end
  | (Raise e, w) => (Raise e, w)
  end.
Proof.
  rewrite step_call_updates, bind_run.
  destruct (call closure w0) as [[loss|e] w]; [|done].
  rewrite bind_run. by destruct (updates w) as [[[]|e] w'].
Qed.

Lemma step_world (closure : option (M (option Val))) w0 loss w :
  call closure w0 = (Ok loss, w) →
  (step closure w0).2 = (updates w).2.
Proof.
  intros Hc. rewrite step_run, Hc. by destruct (updates w) as [[[]|e] w'].
Qed.

Lemma step_adam (closure : option (M (option Val))) w0 loss w G p g :
  call closure w0 = (Ok loss, w) → visits_once w G p g →
  let w' := (step closure w0).2 in
  wf w' ∧ evolves w w' ∧
  (∃ st', state (self w') !! p = Some st' ∧
     match state (self w) !! p with
     | Some st => st_m st' = st_m st ∧ st_v st' = st_v st
     | None => length (heap w) ≤ st_m st' ∧ length (heap w) ≤ st_v st'
     end) ∧
  let m' := moment1 (betas G).1 (first_moment w p) (values w g) in
  let v' := moment2 (betas G).2 (second_moment w p) (values w g) in
  step_count w' p = (step_count w p + 1)%Z ∧
  first_moment w' p = m' ∧ second_moment w' p = v' ∧
  values w' p = updated G (step_count w p + 1) m' v' (values w p).
Proof.
  intros Hc (Hwf & Hg & Hs & pre & post & Hit & Hpre & Hpost & Hd) w'.
  unfold w'. rewrite (step_world _ _ _ _ Hc).
  destruct (updates w) as [r w2] eqn:Hrun. simpl.
  rewrite updates_iteration, Hit in Hrun.
  apply (visits_dense w G p g pre post r); try done.
  rewrite <-Hit. by apply iteration_params.
Qed.

(** ** The claims about [step] *)

(** C1: a parameter with a present dense gradient gets, in one call of
    [step], the moments [m ← beta1·m + (1−beta1)·grad] and
    [v ← beta2·v + (1−beta2)·grad²], written into the tensors of its state,
    and the value [param − delta] with
    [delta = lr · m̂ / (sqrt(v̂) + eps)] (then decayed if the weight decay
    is not zero).  The right-hand sides mention the parameter's own tensors
    and the hyperparameters of its group, and nothing of any other
    parameter. *)
Theorem step_adam_update (closure : option (M (option Val)))
    w0 loss w G p g :
  call closure w0 = (Ok loss, w) →
  visits_once w G p g →
  let w' := (step closure w0).2 in
  let m' := moment1 (betas G).1 (first_moment w p) (values w g) in
  let v' := moment2 (betas G).2 (second_moment w p) (values w g) in
  let t := step_count w' p in
  let m_hat := estimate (correct_bias G) (betas G).1 t m' in
  let v_hat := estimate (correct_bias G) (betas G).2 t v' in
  let s := descend (values w p) (delta (lr G) (eps G) m_hat v_hat) in
  first_moment w' p = m' ∧ second_moment w' p = v' ∧
  values w' p =
    (if negb (weight_decay G =? 0)%float
     then decay (lr G) (weight_decay G) s else s) ∧
  (∀ st, state (self w) !! p = Some st →
     values w' (st_m st) = m' ∧ values w' (st_v st) = v').
Proof.
  intros Hc Hv w' m' v' t.
  destruct (step_adam closure w0 loss w G p g Hc Hv)
    as (_ & _ & (st' & Hst' & Hlocs) & Hcnt & Hm & Hv' & Hp).
  fold w' in Hst', Hcnt, Hm, Hv', Hp. fold m' v' in Hm, Hv', Hp.
  unfold t. rewrite Hcnt. split_and!; [done..|].
  intros st Hst. rewrite Hst in Hlocs. destruct Hlocs as [Hlm Hlv].
  unfold first_moment, second_moment in Hm, Hv'.
  rewrite Hst' in Hm, Hv'. by rewrite <-Hlm, <-Hlv.
Qed.

(** C2: the decay is applied to the value the gradient step has just
    written: with [s = param − delta] the parameter ends as
    [s − lr·weight_decay·s] when [weight_decay != 0], and as [s] when the
    weight decay is zero. *)
Theorem decay_after_gradient_step (closure : option (M (option Val)))
    w0 loss w G p g :
  call closure w0 = (Ok loss, w) →
  visits_once w G p g →
  let w' := (step closure w0).2 in
  let m' := moment1 (betas G).1 (first_moment w p) (values w g) in
  let v' := moment2 (betas G).2 (second_moment w p) (values w g) in
  let s := stepped G (step_count w p + 1) m' v' (values w p) in
  ((weight_decay G =? 0)%float = false →
     values w' p =
       map (λ x, el_add_alpha x (- lr G * weight_decay G)%float x) s) ∧
  ((weight_decay G =? 0)%float = true → values w' p = s).
Proof.
  intros Hc Hv w' m' v' s.
  destruct (step_adam closure w0 loss w G p g Hc Hv)
    as (_ & _ & _ & _ & _ & _ & Hp).
  fold w' m' v' in Hp. unfold updated in Hp. fold s in Hp.
  split; intros Hwd; rewrite Hwd in Hp; done.
Qed.

(** C9: whatever [correct_bias] is, the tensors of the state hold the raw
    moving averages after the call; the corrected estimates never reach
    them. *)
Theorem stored_moments_raw (closure : option (M (option Val)))
    w0 loss w G p g :
  call closure w0 = (Ok loss, w) →
  visits_once w G p g →
  let w' := (step closure w0).2 in
  ∃ st',
    state (self w') !! p = Some st' ∧
    values w' (st_m st') =
      moment1 (betas G).1 (first_moment w p) (values w g) ∧
    values w' (st_v st') =
      moment2 (betas G).2 (second_moment w p) (values w g).
Proof.
  intros Hc Hv w'.
  destruct (step_adam closure w0 loss w G p g Hc Hv)
    as (_ & _ & (st' & Hst' & _) & _ & Hm & Hv' & _).
  fold w' in Hst', Hm, Hv'. exists st'.
  unfold first_moment, second_moment in Hm, Hv'.
  rewrite Hst' in Hm, Hv'. done.
Qed.

(** The estimates that enter the update, under each setting of
    [correct_bias]. *)
Lemma step_estimates (closure : option (M (option Val)))
    w0 loss w G p g :
  call closure w0 = (Ok loss, w) →
  visits_once w G p g →
  let w' := (step closure w0).2 in
  let m' := first_moment w' p in
  let v' := second_moment w' p in
  let t := step_count w' p in
  t = (step_count w p + 1)%Z ∧
  ∃ m_hat v_hat,
    values w' p =
      (let s := descend (values w p) (delta (lr G) (eps G) m_hat v_hat) in
       if negb (weight_decay G =? 0)%float
       then decay (lr G) (weight_decay G) s else s) ∧
    (correct_bias G = true →
       m_hat = map (λ x, el_div x (1 - py_pow (betas G).1 t)%float) m' ∧
       v_hat = map (λ x, el_div x (1 - py_pow (betas G).2 t)%float) v') ∧
    (correct_bias G = false → m_hat = m' ∧ v_hat = v').
Proof.
  intros Hc Hv w' m' v' t.
  destruct (step_adam closure w0 loss w G p g Hc Hv)
    as (_ & _ & _ & Hcnt & Hm & Hv' & Hp).
  fold w' in Hcnt, Hm, Hv', Hp. fold m' in Hm. fold v' in Hv'. fold t in Hcnt.
  rewrite <-Hm, <-Hv', <-Hcnt in Hp. split; [done|].
  exists (estimate (correct_bias G) (betas G).1 t m'),
         (estimate (correct_bias G) (betas G).2 t v').
  split; [exact Hp|]. unfold estimate, bias_corrected.
  split; intros ->; done.
Qed.

(** C6: a sparse gradient makes [step] raise at once.  The store is left
    as the visits made so far have written it: the parameters updated
    earlier in the call keep their update, the failing visit itself
    changes nothing, and nothing is visited after it. *)
Theorem sparse_gradient_raises (closure : option (M (option Val)))
    w0 loss w G p g pre post :
  call closure w0 = (Ok loss, w) →
  wf w →
  iteration w = pre ++ (G, p) :: post →
  Forall (λ x, dense_or_absent w x.2) pre →
  grad (heap w !!! p) = Some g → is_sparse (heap w !!! g) = true →
  ∃ w1,
    for_ pre (λ x, update_param x.1 x.2) w = (Ok (), w1) ∧
    step closure w0 = (Raise RuntimeError, w1) ∧
    update_param G p w1 = (Raise RuntimeError, w1) ∧
    (p ∉ pre.*2 →
       heap w1 !! p = heap w !! p ∧
       state (self w1) !! p = state (self w) !! p) ∧
    (∀ pre1 G' q gq pre2,
       pre = pre1 ++ (G', q) :: pre2 → q ∉ pre1.*2 → q ∉ pre2.*2 →
       grad (heap w !!! q) = Some gq →
       let m' := moment1 (betas G').1 (first_moment w q) (values w gq) in
       let v' := moment2 (betas G').2 (second_moment w q) (values w gq) in
       step_count w1 q = (step_count w q + 1)%Z ∧
       first_moment w1 q = m' ∧ second_moment w1 q = v' ∧
       values w1 q = updated G' (step_count w q + 1) m' v' (values w q)).
Proof.
  intros Hc Hwf Hit Hd Hg Hs.
  destruct (iteration_split _ _ _ _ Hit) as (Hin1 & Hp & Hin2). simpl in Hp.
  destruct (for_ pre visit w) as [r1 w1] eqn:Hrun1.
  assert (r1 = Ok ()) as ->.
  { apply (for_ok pre w _ w1); [done| |done].
    apply Forall_forall. intros x Hx. rewrite Forall_forall in Hin1, Hd.
    auto. }
  assert (Hframe : wf w1 ∧ evolves w w1 ∧
                   (p ∉ pre.*2 → same_view w w1 p)).
  { destruct (for_wf pre w (Ok ()) w1) as [? ?]; [done..|].
    split_and!; [done..|]. intros Hnin.
    by destruct (for_frame pre p w (Ok ()) w1) as (_ & _ & ?); auto. }
  destruct Hframe as (Hwf1 & Hev1 & Hview1).
  pose proof Hev1 as (Hgr1 & _ & Hattr1).
  destruct (wf_grad _ _ _ Hwf Hp Hg) as (Hgl & _).
  assert (Hfail : update_param G p w1 = (Raise RuntimeError, w1)).
  { apply (update_param_sparse G p g).
    - destruct (Hattr1 p (wf_param _ _ Hwf Hp)) as [-> _]. done.
    - destruct (Hattr1 g Hgl) as (_ & -> & _). done. }
  exists w1. split_and!; [done| |done| |].
  - rewrite step_run, Hc, updates_iteration, Hit, for_app, bind_run, Hrun1.
    simpl. by rewrite bind_run, Hfail.
  - intros Hnin. destruct (Hview1 Hnin) as [Hst Hown].
    split; [|done]. apply Hown. by left.
  - intros pre1 G' q gq pre2 -> Hq1 Hq2 Hgq.
    assert (Hsq : is_sparse (heap w !!! gq) = false).
    { apply Forall_app in Hd as [_ Hd]. apply Forall_cons in Hd as [Hd _].
      unfold dense_or_absent in Hd. simpl in Hd. by rewrite Hgq in Hd. }
    destruct (visits_dense w G' q gq pre1 pre2 (Ok ()) w1)
      as (_ & _ & _ & ?); try done.
    by apply Forall_app in Hd as [? _].
Qed.

(** One call: a parameter without gradient keeps its tensor and its
    entry (or its absence) in the state dict. *)
Lemma step_idle (closure : option (M (option Val))) p w :
  idle p w → quiet p closure →
  let w' := (step closure w).2 in
  idle p w' ∧ heap w' !! p = heap w !! p ∧
  state (self w') !! p = state (self w) !! p.
Proof.
  intros Hidle Hquiet w'. unfold w'. rewrite step_run.
  destruct (call closure w) as [r w1] eqn:Hc.
  destruct (Hquiet w r w1 Hidle Hc) as ((Hwf1 & Hp1 & Hg1) & Hh1 & Hs1).
  destruct r as [loss|e]; [|done].
  destruct (updates w1) as [r2 w2] eqn:Hrun.
  rewrite updates_iteration in Hrun.
  destruct (for_frame (iteration w1) p w1 r2 w2)
    as (Hwf2 & (Hgr2 & _) & Hview2); auto.
  { by apply iteration_params. }
  destruct (same_view_values _ _ _ Hview2) as (_ & _ & _ & _ & Hg2 & _).
  destruct Hview2 as [Hs2 Hown2].
  assert (heap w2 !! p = heap w1 !! p) as Hh2 by (apply Hown2; by left).
  assert ((match r2 with Ok _ => (Ok loss, w2) | Raise e => (Raise e, w2) end).2
          = w2) as -> by by destruct r2.
  split_and!.
  - split_and!; [done|by rewrite (all_params_groups w1 w2)|congruence].
  - congruence.
  - congruence.
Qed.

(** C7: a parameter whose gradient is absent, and stays absent, is left
    as it is by any number of calls of [step]: its tensor is unchanged,
    no state is created for it, and the state it may have from earlier
    keeps its step count. *)
Theorem absent_gradient_untouched
    (closures : list (option (M (option Val)))) p w :
  idle p w → Forall (quiet p) closures →
  let w' := run_steps closures w in
  heap w' !! p = heap w !! p ∧
  state (self w') !! p = state (self w) !! p.
Proof.
  intros Hidle Hquiet. revert w Hidle.
  induction Hquiet as [|c cs Hc Hcs IH]; intros w Hidle; [done|].
  simpl. destruct (step_idle c p w Hidle Hc) as (Hidle1 & Hh1 & Hs1).
  destruct (IH _ Hidle1) as [Hh Hs]. split; congruence.
Qed.

(** C8: [step] calls the closure once, on the store as it finds it; the
    updates run on the store the closure leaves, and what the closure
    returned is what [step] returns.  Without closure the updates run on
    the store as it is and [step] returns [None]. *)
Theorem step_closure_once (c : M (option Val)) w :
  step (Some c) w =
    match c w with
    | (Ok loss, w1) =>
        match step (Val:=Val) None w1 with
        | (Ok _, w2) => (Ok loss, w2)
        | (Raise e, w2) => (Raise e, w2)
        end
    | (Raise e, w1) => (Raise e, w1)
    end ∧
  step (Val:=Val) None w =
    match updates w with
    | (Ok _, w') => (Ok None, w')
    | (Raise e, w') => (Raise e, w')
    end.
Proof.
  rewrite !step_run. simpl. split; [|done].
  destruct (c w) as [[loss|e] w1]; [|done].
  rewrite step_run. simpl. unfold mret, M_ret.
  by destruct (updates w1) as [[[]|e] w2].
Qed.

Lemma visits_once_evolves w w' G p g :
  visits_once w G p g → wf w' → evolves w w' → visits_once w' G p g.
Proof.
  intros (Hwf & Hg & Hs & pre & post & Hit & Hpre & Hpost & Hd) Hwf' Hev.
  pose proof Hev as (Hgr & _ & Hattr).
  destruct (iteration_split _ _ _ _ Hit) as (Hin1 & Hp & _). simpl in Hp.
  destruct (wf_grad _ _ _ Hwf Hp Hg) as (Hgl & _).
  split_and!; [done| | |].
  - destruct (Hattr p (wf_param _ _ Hwf Hp)) as [-> _]. done.
  - destruct (Hattr g Hgl) as (_ & -> & _). done.
  - exists pre, post. rewrite (iteration_groups w w') by done.
    split_and!; [done..|].
    apply Forall_forall. intros x Hx. rewrite Forall_forall in Hin1, Hd.
    apply (dense_or_absent_evolves w); auto.
Qed.

(** One call of [step] on a parameter that is visited once and has a
    dense gradient: the count goes up by one, and the tensors of an
    existing state are kept. *)
Lemma step_trainable (closure : option (M (option Val))) p w :
  trainable p w → feeds p closure →
  let w' := (step closure w).2 in
  trainable p w' ∧
  (∃ st', state (self w') !! p = Some st' ∧
          st_step st' = (step_count w p + 1)%Z ∧
          ∀ st, state (self w) !! p = Some st →
                st_m st' = st_m st ∧ st_v st' = st_v st).
Proof.
  intros Htr Hfeeds w'.
  destruct (call closure w) as [r w1] eqn:Hc.
  destruct (Hfeeds w r w1 Htr Hc) as ((loss & ->) & (G & g & Hv) & Hst1).
  destruct (step_adam closure w loss w1 G p g Hc Hv)
    as (Hwf' & Hev' & (st' & Hst' & Hlocs) & Hcnt & _).
  fold w' in Hwf', Hev', Hst', Hcnt.
  split.
  - exists G, g. by apply (visits_once_evolves w1).
  - exists st'. split; [done|]. split.
    + unfold step_count in Hcnt. rewrite Hst', Hst1 in Hcnt. done.
    + intros st Hst. rewrite Hst1, Hst in Hlocs. done.
Qed.

(** C4: the state dict of a parameter is filled at its first update, with
    the step count 0 and two tensors of zeros of the parameter's shape,
    and found again at every later one; each update adds one to the count,
    so that [N] calls of [step] that each update the parameter leave the
    count at [N] above where it was, in the same two tensors. *)
Theorem lazy_state_and_step_count
    (closures : list (option (M (option Val)))) p w :
  trainable p w → Forall (feeds p) closures →
  let w' := run_steps closures w in
  (state (self w) !! p = None →
     ∃ st w1,
       state_of p w = (Ok st, w1) ∧
       state (self w1) !! p = Some st ∧ st_step st = 0%Z ∧
       length (heap w) ≤ st_m st ∧ length (heap w) ≤ st_v st ∧
       values w1 (st_m st) = replicate (length (values w p)) el_zero ∧
       values w1 (st_v st) = replicate (length (values w p)) el_zero) ∧
  (∀ st, state (self w) !! p = Some st → state_of p w = (Ok st, w)) ∧
  step_count w' p = (step_count w p + Z.of_nat (length closures))%Z ∧
  (state (self w) !! p = None → closures ≠ [] →
     ∃ st', state (self w') !! p = Some st' ∧
            st_step st' = Z.of_nat (length closures)) ∧
  (∀ st, state (self w) !! p = Some st →
     ∃ st', state (self w') !! p = Some st' ∧
            st_step st' = (st_step st + Z.of_nat (length closures))%Z ∧
            st_m st' = st_m st ∧ st_v st' = st_v st).
Proof.
  intros Htr Hfeeds w'.
  assert (Hiter :
    step_count w' p = (step_count w p + Z.of_nat (length closures))%Z ∧
    (closures ≠ [] → is_Some (state (self w') !! p)) ∧
    (∀ st, state (self w) !! p = Some st →
       ∃ st', state (self w') !! p = Some st' ∧
              st_m st' = st_m st ∧ st_v st' = st_v st)).
  { unfold w'. clear w'. revert w Htr.
    induction Hfeeds as [|c cs Hc Hcs IH]; intros w Htr.
    - simpl. split_and!; [lia|done|eauto].
    - simpl. destruct (step_trainable c p w Htr Hc)
        as (Htr1 & st1 & Hst1 & Hcnt1 & Hlocs1).
      destruct (IH _ Htr1) as (Hcnt & _ & Hkeep).
      destruct (Hkeep st1 Hst1) as (st' & Hst' & Hm' & Hv').
      split_and!.
      + rewrite Hcnt. unfold step_count at 1. rewrite Hst1, Hcnt1. lia.
      + intros _. by exists st'.
      + intros st Hst. exists st'. destruct (Hlocs1 st Hst).
        split_and!; congruence. }
  destruct Hiter as (Hcnt & Hsome & Hkeep).
  destruct Htr as (G & g & Hwf & Hg & _ & pre & post & Hit & _).
  destruct (iteration_split _ _ _ _ Hit) as (_ & Hp & _). simpl in Hp.
  pose proof (wf_param _ _ Hwf Hp) as Hlt.
  split_and!.
  - intros Hnone. exists (fresh_state w), (with_state p w).
    rewrite state_of_new by done.
    destruct (values_with_state_new p w) as [Hzm Hzv].
    split_and!; simpl; try done; try lia.
    apply lookup_insert_eq.
  - intros st Hst. by apply state_of_old.
  - done.
  - intros Hnone Hne. destruct (Hsome Hne) as [st' Hst']. exists st'.
    split; [done|]. unfold step_count in Hcnt.
    rewrite Hst', Hnone in Hcnt. lia.
  - intros st Hst. destruct (Hkeep st Hst) as (st' & Hst' & Hm & Hv).
    exists st'. split_and!; [done| |done..].
    unfold step_count in Hcnt. rewrite Hst', Hst in Hcnt. done.
Qed.

End Properties.

(** ** Construction *)

Lemma negative_not_nonneg (x : float) :
  (x <? 0)%float = true → (0 <=? x)%float = false.
Proof.
  rewrite ltb_spec, leb_spec. unfold SFltb, SFleb.
  destruct (Prim2SF x) as [[]|[]| |[] m e]; simpl; try discriminate; auto.
Qed.

(** C5: construction raises ValueError (the InvalidConfiguration of the
    specification) whenever [lr < 0], or a beta is outside [0.0, 1.0), or
    [eps < 0], whatever the other arguments are; so do the four values
    [lr = -0.1], [beta1 = 1.0], [beta2 = -0.1] and [eps = -1e-8]; with
    [lr = 0.001], [betas = (0.9, 0.999)] and [eps = 1e-6] it succeeds, for
    a collection of parameters that is not empty. *)
Theorem init_validation ps lr betas eps weight_decay correct_bias :
  ((lr <? 0)%float = true ∨
   in_unit_interval betas.1 = false ∨ in_unit_interval betas.2 = false ∨
   (eps <? 0)%float = true →
   AdamW_init ps lr betas eps weight_decay correct_bias = Raise ValueError) ∧
  AdamW_init ps (-0.1)%float betas eps weight_decay correct_bias
    = Raise ValueError ∧
  AdamW_init ps lr (1.0%float, betas.2) eps weight_decay correct_bias
    = Raise ValueError ∧
  AdamW_init ps lr (betas.1, (-0.1)%float) eps weight_decay correct_bias
    = Raise ValueError ∧
  AdamW_init ps lr betas (-1e-8)%float weight_decay correct_bias
    = Raise ValueError ∧
  (ps ≠ [] →
   AdamW_init ps 0.001%float (0.9, 0.999)%float 1e-6%float
     weight_decay correct_bias =
   Ok {| param_groups :=
           [ {| params := ps; lr := 0.001%float;
                betas := (0.9, 0.999)%float;
                eps := 1e-6%float;
                weight_decay := weight_decay;
                correct_bias := correct_bias |} ];
         state := ∅ |}).
Proof.
  assert (Hgen : ∀ lr betas eps,
    (lr <? 0)%float = true ∨
    in_unit_interval betas.1 = false ∨ in_unit_interval betas.2 = false ∨
    (eps <? 0)%float = true →
    AdamW_init ps lr betas eps weight_decay correct_bias = Raise ValueError).
  { clear. intros lr betas eps H. unfold AdamW_init.
    destruct (lr <? 0)%float; [done|].
    destruct (in_unit_interval betas.1); [|done].
    destruct (in_unit_interval betas.2); [|done].
    destruct H as [H|[H|[H|H]]]; try done.
    by rewrite (negative_not_nonneg _ H). }
  split_and!.
  - apply Hgen.
  - apply Hgen. by left.
  - apply Hgen. right. by left.
  - apply Hgen. right. right. by left.
  - apply Hgen. by repeat right.
  - intros Hps. unfold AdamW_init. simpl.
    unfold Optimizer_init. by destruct ps.
Qed.

(** C10: [weight_decay] is never looked at.  A construction that raises
    raises for every weight decay, one that succeeds succeeds for every
    weight decay, and the group holds the value as given; with the other
    arguments in their domains, every float (negative, infinite, NaN)
    is accepted. *)
Theorem weight_decay_unvalidated ps lr betas eps correct_bias :
  (∀ wd wd' e,
     AdamW_init ps lr betas eps wd correct_bias = Raise e →
     AdamW_init ps lr betas eps wd' correct_bias = Raise e) ∧
  (∀ wd wd' opt,
     AdamW_init ps lr betas eps wd correct_bias = Ok opt →
     AdamW_init ps lr betas eps wd' correct_bias =
     Ok {| param_groups :=
             [ {| params := ps; lr := lr; betas := betas;
                  eps := eps; weight_decay := wd';
                  correct_bias := correct_bias |} ];
           state := ∅ |}) ∧
  ((lr <? 0)%float = false → in_unit_interval betas.1 = true →
   in_unit_interval betas.2 = true → (0 <=? eps)%float = true → ps ≠ [] →
   ∀ wd,
     AdamW_init ps lr betas eps wd correct_bias =
     Ok {| param_groups :=
             [ {| params := ps; lr := lr; betas := betas;
                  eps := eps; weight_decay := wd;
                  correct_bias := correct_bias |} ];
           state := ∅ |}).
Proof.
  unfold AdamW_init, Optimizer_init. split_and!.
  - intros wd wd' e.
    destruct (lr <? 0)%float; [done|].
    destruct (in_unit_interval betas.1); [|done].
    destruct (in_unit_interval betas.2); [|done].
    destruct (0 <=? eps)%float; [|done]. simpl. by destruct ps.
  - intros wd wd' opt.
    destruct (lr <? 0)%float; [done|].
    destruct (in_unit_interval betas.1); [|done].
    destruct (in_unit_interval betas.2); [|done].
    destruct (0 <=? eps)%float; [|done]. simpl. by destruct ps.
  - intros -> -> -> -> Hps wd. simpl. by destruct ps.
Qed.

(** * The float64 instance at the sample worlds *)

Lemma sample_world_wf wd cb : wf (sample_world wd cb).
Proof. apply (bool_decide_unpack _). by vm_compute. Qed.

Lemma sample_visits_once wd cb :
  visits_once (sample_world wd cb) (sample_group wd cb) 0 1.
Proof.
  split_and!; [apply sample_world_wf|done..|].
  exists [], [(sample_group wd cb, 2)].
  split_and!; [done|apply not_elem_of_nil| |constructor].
  simpl. rewrite list_elem_of_singleton. lia.
Qed.

Lemma sample_idle wd cb : idle 2 (sample_world wd cb).
Proof.
  split_and!; [apply sample_world_wf| |done].
  apply (bool_decide_unpack _). by vm_compute.
Qed.

Lemma sparse_world_wf : wf sparse_world.
Proof. apply (bool_decide_unpack _). by vm_compute. Qed.

Lemma no_closure_feeds {E} `{!Numerics E} {Val} p : feeds (E:=E) (Val:=Val) p None.
Proof.
  intros w r w1 Htr Hc. injection Hc as <- <-. split_and!; eauto.
Qed.

Lemma no_closure_quiet {E} `{!Numerics E} {Val} p : quiet (E:=E) (Val:=Val) p None.
Proof. intros w r w1 Hidle Hc. by injection Hc as <- <-. Qed.

Lemma clear_grad_quiet {E} `{!Numerics E} {Val} p :
  quiet (E:=E) (Val:=Val) p (Some (clear_grad p)).
Proof.
  intros w r w1 Hidle Hc. pose proof Hidle as (Hwf & Hp & Hg).
  assert (Hsame : alter (set_grad None) p (heap w) = heap w).
  { apply list_eq. intros i. rewrite list_lookup_alter.
    case_decide as Hi; [subst i|done].
    destruct (heap w !! p) as [t|] eqn:Ht; [|done]. simpl. f_equal.
    rewrite (list_lookup_total_correct _ _ _ Ht) in Hg.
    destruct t. simpl in *. by subst. }
  unfold call, clear_grad in Hc.
  cbv [mbind M_bind mret M_ret modify set_heap] in Hc. rewrite Hsame in Hc.
  destruct w. by injection Hc as <- <-.
Qed.

Lemma step_adam_update_witness :
  let w := sample_world 0%float true in
  visits_once w (sample_group 0%float true) 0 1 ∧
  first_moment (step (Val:=unit) None w).2 0 = [0.0099999999999999985%float] ∧
  second_moment (step (Val:=unit) None w).2 0 = [1.0000000000000011e-05%float] ∧
  values (step (Val:=unit) None w).2 0 = [0.90000099999000005%float].
Proof.
  intros w. split; [apply sample_visits_once|].
  pose proof (step_adam_update (Val:=unit) None w None w
                (sample_group 0%float true) 0 1 eq_refl
                (sample_visits_once _ _)) as H.
  cbv zeta in H. destruct H as (-> & -> & -> & _). by vm_compute.
Defined.

Lemma decay_after_gradient_step_witness :
  let w := sample_world 0.01%float true in
  let s := 0.90000099999000005%float in
  visits_once w (sample_group 0.01%float true) 0 1 ∧
  values (step (Val:=unit) None (sample_world 0%float true)).2 0 = [s] ∧
  values (step (Val:=unit) None w).2 0 = [(s + - 0.1 * 0.01 * s)%float] ∧
  ((s + - 0.1 * 0.01 * s) =? (s + - 0.1 * 0.01 * 1.0))%float = false.
Proof.
  intros w s. split; [apply sample_visits_once|].
  pose proof (decay_after_gradient_step (Val:=unit) None w None w
                (sample_group 0.01%float true) 0 1 eq_refl
                (sample_visits_once _ _)) as H.
  cbv zeta in H. destruct H as [H _]. rewrite H by done. by vm_compute.
Defined.

Lemma stored_moments_raw_witness :
  let w := sample_world 0%float true in
  visits_once w (sample_group 0%float true) 0 1 ∧
  ∃ st',
    state (self (step (Val:=unit) None w).2) !! 0 = Some st' ∧
    values (step (Val:=unit) None w).2 (st_m st') =
      [(0 * 0.9 + (1 - 0.9) * 0.1)%float] ∧
    values (step (Val:=unit) None w).2 (st_v st') =
      [(0 * 0.999 + (1 - 0.999) * 0.1 * 0.1)%float].
Proof.
  intros w. split; [apply sample_visits_once|].
  exact (stored_moments_raw (Val:=unit) None w None w
           (sample_group 0%float true) 0 1 eq_refl
           (sample_visits_once _ _)).
Defined.

Lemma lazy_state_and_step_count_witness :
  let w := sample_world 0%float true in
  trainable 0 w ∧
  Forall (feeds (E:=float) (Val:=unit) 0) [None; None; None] ∧
  state (self w) !! 0 = None ∧
  ∃ st',
    state (self (run_steps (Val:=unit) [None; None; None] w)) !! 0
      = Some st' ∧
    st_step st' = 3%Z.
Proof.
  intros w.
  assert (Htr : trainable 0 w) by (eexists _, _; apply sample_visits_once).
  assert (Hfeeds : Forall (feeds (E:=float) (Val:=unit) 0) [None; None; None])
    by (repeat (constructor; [apply no_closure_feeds|]); constructor).
  split_and!; [done..|].
  pose proof (lazy_state_and_step_count [None; None; None] 0 w Htr Hfeeds)
    as H.
  cbv zeta in H. destruct H as (_ & _ & _ & H & _). by apply H.
Defined.

Lemma sparse_gradient_raises_witness :
  let G := sample_group 0%float true in
  wf sparse_world ∧
  iteration sparse_world = [(G, 0)] ++ (G, 2) :: [] ∧
  Forall (λ x, dense_or_absent sparse_world x.2) [(G, 0)] ∧
  ∃ w1,
    step (Val:=unit) None sparse_world = (Raise RuntimeError, w1) ∧
    values w1 0 = [0.90000099999000005%float] ∧
    values w1 2 = values sparse_world 2 ∧
    state (self w1) !! 2 = None.
Proof.
  intros G.
  assert (Hd : Forall (λ x, dense_or_absent sparse_world x.2) [(G, 0)]).
  { repeat constructor. }
  split_and!; [apply sparse_world_wf|done|done|].
  destruct (sparse_gradient_raises (Val:=unit) None sparse_world None
              sparse_world G 2 3 [(G, 0)] [] eq_refl sparse_world_wf
              eq_refl Hd eq_refl eq_refl)
    as (w1 & Hpre & Hstep & _ & Hkeep & Hdone).
  exists w1. split; [done|].
  destruct Hkeep as [Hh Hs].
  { simpl. rewrite list_elem_of_singleton. lia. }
  destruct (Hdone [] G 0 1 []) as (_ & _ & _ & Hv);
    [done|apply not_elem_of_nil..|done|].
  split_and!.
  - rewrite Hv. by vm_compute.
  - unfold values. by rewrite !list_lookup_total_alt, Hh.
  - by rewrite Hs.
Defined.

Lemma absent_gradient_untouched_witness :
  let w := sample_world 0%float true in
  let closures := [None; Some (clear_grad 2); None] in
  idle 2 w ∧ Forall (quiet (E:=float) (Val:=unit) 2) closures ∧
  heap (run_steps closures w) !! 2 = heap w !! 2 ∧
  state (self (run_steps closures w)) !! 2 = None.
Proof.
  intros w closures.
  assert (Hq : Forall (quiet (E:=float) (Val:=unit) 2) closures).
  { constructor; [apply no_closure_quiet|].
    constructor; [apply clear_grad_quiet|].
    constructor; [apply no_closure_quiet|constructor]. }
  split_and!; [apply sample_idle|done|..];
    destruct (absent_gradient_untouched closures 2 w (sample_idle _ _) Hq)
      as [Hh Hs]; done.
Defined.




Lemma init_validation_witness :
  ((-0.1 <? 0)%float = true ∨
   in_unit_interval 0.9 = false ∨ in_unit_interval 0.999 = false ∨
   (1e-6 <? 0)%float = true) ∧
  AdamW_init [0] (-0.1)%float (0.9, 0.999)%float 1e-6%float 0%float true
    = Raise ValueError.
Proof.
  split; [by left|].
  apply (proj1 (init_validation [0] (-0.1)%float (0.9, 0.999)%float
                  1e-6%float 0%float true)).
  by left.
Defined.

Lemma weight_decay_unvalidated_witness :
  (default_lr <? 0)%float = false ∧
  in_unit_interval default_betas.1 = true ∧
  in_unit_interval default_betas.2 = true ∧
  (0 <=? default_eps)%float = true ∧
  [0; 2] ≠ [] ∧
  AdamW_init [0; 2] default_lr default_betas default_eps (-5)%float
    default_correct_bias
  = Ok {| param_groups :=
            [ {| params := [0; 2]; lr := 0.001%float;
                 betas := (0.9, 0.999)%float; eps := 1e-6%float;
                 weight_decay := (-5)%float; correct_bias := true |} ];
          state := ∅ |}.
Proof.
  split_and!; [done..|].
  by apply (proj2 (proj2 (weight_decay_unvalidated [0; 2] default_lr
                            default_betas default_eps
                            default_correct_bias))).
Defined.

(** * Further properties *)

Section Further.
Context {E : Type} `{!Numerics E} {Val : Type}.
Implicit Types (w : @World E) (p q g l : loc) (G : Group) (st : State).
Implicit Types (h : list (@Tensor E)) (ps : list loc).

Abbreviation visit := (λ x : Group * loc, update_param x.1 x.2).

(** ** What [step] leaves alone *)

Lemma all_params_iteration w x : x ∈ iteration w → x.2 ∈ all_params w.
Proof. intros Hx. unfold all_params. by apply list_elem_of_fmap_2. Qed.

Lemma iteration_all w : Forall (λ x, x.2 ∈ all_params w) (iteration w).
Proof. by apply iteration_params. Qed.

Lemma step_Ok (closure : option (M (option Val))) w0 loss w r w' :
  call closure w0 = (Ok loss, w) → updates w = (r, w') →
  step closure w0 = (match r with Ok _ => Ok loss | Raise e => Raise e end, w').
Proof. intros Hc Hu. rewrite step_run, Hc, Hu. by destruct r. Qed.

Lemma step_Raise (closure : option (M (option Val))) w0 e w :
  call closure w0 = (Raise e, w) → step closure w0 = (Raise e, w).
Proof. intros Hc. by rewrite step_run, Hc. Qed.

(** The visits of parameters without gradient change nothing. *)
Lemma for_absent xs w :
  Forall (λ x, grad (heap w !!! x.2) = None) xs →
  for_ xs visit w = (Ok (), w).
Proof.
  induction 1 as [|[G q] xs Hq _ IH]; [done|].
  simpl. rewrite bind_run, update_param_absent by done. exact IH.
Qed.

(** X1: when no parameter has a gradient, [step] is the closure alone:
    it returns what the closure returned and leaves the store exactly as
    the closure left it; no state dict is created and nothing is
    allocated. *)
Theorem step_without_gradients (closure : option (M (option Val)))
    w0 loss w :
  call closure w0 = (Ok loss, w) →
  Forall (λ p, grad (heap w !!! p) = None) (all_params w) →
  step closure w0 = (Ok loss, w).
Proof.
  intros Hc Hnone.
  rewrite (step_Ok closure w0 loss w (Ok ()) w Hc); [done|].
  rewrite updates_iteration. apply for_absent.
  unfold all_params in Hnone. by apply Forall_fmap in Hnone.
Qed.

Lemma step_evolves (closure : option (M (option Val))) w0 r w :
  call closure w0 = (r, w) → wf w →
  wf (step closure w0).2 ∧ evolves w (step closure w0).2.
Proof.
  intros Hc Hwf. destruct r as [loss|e].
  - destruct (updates w) as [r w1] eqn:Hu.
    rewrite (step_Ok closure w0 loss w r w1 Hc Hu). simpl.
    rewrite updates_iteration in Hu.
    by destruct (for_wf _ _ _ _ Hwf (iteration_all w) Hu).
  - rewrite (step_Raise closure w0 e w Hc). simpl.
    split; [done|]. apply evolves_refl.
Qed.

(** X2: [step] keeps the store well formed, whether it returns or raises
    (in the closure or at a sparse gradient): the groups are the same, no
    tensor disappears, and every tensor keeps its [grad] attribute, its
    layout and its shape. *)
Theorem step_keeps_well_formed (closure : option (M (option Val)))
    w0 r w :
  call closure w0 = (r, w) → wf w →
  let w' := (step closure w0).2 in
  wf w' ∧
  param_groups (self w') = param_groups (self w) ∧
  length (heap w) ≤ length (heap w') ∧
  ∀ l, l < length (heap w) →
    grad (heap w' !!! l) = grad (heap w !!! l) ∧
    is_sparse (heap w' !!! l) = is_sparse (heap w !!! l) ∧
    length (values w' l) = length (values w l).
Proof. intros Hc Hwf. exact (step_evolves closure w0 r w Hc Hwf). Qed.

(** What a visit does to the state dict: an entry found afterwards was
    there, with the same tensors, or is new, over two new tensors. *)
Lemma visit_state G q w r w' :
  wf w → q ∈ all_params w → update_param G q w = (r, w') →
  ∀ q' st',
    state (self w') !! q' = Some st' →
    (∃ st, state (self w) !! q' = Some st ∧
           st_m st' = st_m st ∧ st_v st' = st_v st) ∨
    (state (self w) !! q' = None ∧ q' = q ∧
     st_m st' = length (heap w) ∧ st_v st' = S (length (heap w))).
Proof.
  intros Hwf Hq Hrun q' st' Hst'.
  destruct (visit_cases G q w Hwf Hq)
    as [[_ Hr]|[(g & _ & _ & Hr)|[(g & st & _ & _ & Hst & Hr)
       |(g & _ & _ & Hst & Hr)]]];
    rewrite Hr in Hrun; injection Hrun as <- <-.
  - left. by exists st'.
  - left. by exists st'.
  - rewrite after_update_state in Hst'. left.
    destruct (decide (q' = q)) as [->|Hne].
    + rewrite lookup_insert_eq in Hst'. injection Hst' as <-. by exists st.
    + rewrite lookup_insert_ne in Hst' by done. by exists st'.
  - rewrite after_update_state in Hst'. unfold with_state in Hst'.
    simpl in Hst'.
    destruct (decide (q' = q)) as [->|Hne].
    + rewrite lookup_insert_eq in Hst'. injection Hst' as <-. by right.
    + rewrite !lookup_insert_ne in Hst' by done. left. by exists st'.
Qed.

(** A tensor that is neither a parameter nor a moment is not written. *)
Lemma for_foreign xs l w r w' :
  wf w → Forall (λ x, x.2 ∈ all_params w) xs →
  l < length (heap w) → l ∉ all_params w →
  (∀ q st, state (self w) !! q = Some st → l ≠ st_m st ∧ l ≠ st_v st) →
  for_ xs visit w = (r, w') →
  heap w' !! l = heap w !! l.
Proof.
  revert w. induction xs as [|[G q] xs IH];
    intros w Hwf Hxs Hl Hnp Hnm Hrun.
  { by injection Hrun as <- <-. }
  apply Forall_cons in Hxs as [Hq Hxs]. simpl in Hq, Hrun.
  rewrite bind_run in Hrun.
  destruct (update_param G q w) as [r1 w1] eqn:Hvisit.
  destruct (visit_frame G q w r1 w1 Hwf Hq Hvisit)
    as (Hwf1 & Hev1 & _ & Hfr).
  assert (Hh1 : heap w1 !! l = heap w !! l).
  { apply Hfr; [done|by intros ->|]. intros st Hst. by apply (Hnm q). }
  destruct r1 as [[]|e]; [|by injection Hrun as <- <-].
  pose proof Hev1 as (Hgr1 & Hlen1 & _).
  rewrite <-Hh1. apply IH; try done.
  - by rewrite (all_params_groups w w1).
  - lia.
  - by rewrite (all_params_groups w w1).
  - intros q' st' Hst'.
    destruct (visit_state G q w _ w1 Hwf Hq Hvisit q' st' Hst')
      as [(st & Hst & -> & ->)|(_ & _ & -> & ->)]; [by apply (Hnm q')|lia].
Qed.

Lemma step_foreign (closure : option (M (option Val))) w0 r w l :
  call closure w0 = (r, w) → wf w →
  l < length (heap w) → l ∉ all_params w →
  l ∉ moment_locs (state (self w)) →
  heap (step closure w0).2 !! l = heap w !! l.
Proof.
  intros Hc Hwf Hl Hnp Hnm. destruct r as [loss|e].
  - destruct (updates w) as [r w1] eqn:Hu.
    rewrite (step_Ok closure w0 loss w r w1 Hc Hu). simpl.
    rewrite updates_iteration in Hu.
    apply (for_foreign (iteration w) l w r); try done.
    + apply iteration_all.
    + intros q st Hst. destruct (moment_locs_lookup _ _ _ Hst).
      split; by intros ->.
  - by rewrite (step_Raise closure w0 e w Hc).
Qed.

Lemma step_gradient (closure : option (M (option Val))) w0 r w p g :
  call closure w0 = (r, w) → wf w →
  p ∈ all_params w → grad (heap w !!! p) = Some g →
  grad (heap (step closure w0).2 !!! p) = Some g ∧
  heap (step closure w0).2 !! g = heap w !! g.
Proof.
  intros Hc Hwf Hp Hg.
  destruct (wf_grad _ _ _ Hwf Hp Hg) as (Hgl & Hgp & Hgm).
  split.
  - destruct (step_evolves closure w0 r w Hc Hwf) as (_ & _ & _ & Hattr).
    destruct (Hattr p (wf_param _ _ Hwf Hp)) as (Hgp' & _).
    by rewrite Hgp'.
  - apply (step_foreign closure w0 r w); [done..|]. intros Hin.
    apply list_elem_of_bind in Hin as ([q st] & Hin & Hq).
    apply elem_of_map_to_list in Hq. destruct (Hgm _ _ Hq). simpl in Hin.
    rewrite !elem_of_cons in Hin. destruct Hin as [?|[?|Hnil]]; try done.
    by apply not_elem_of_nil in Hnil.
Qed.

(** X3: [step] writes parameters and moments only.  A tensor that is
    neither is found as it was; in particular a gradient is never
    modified, zeroed or detached by [step], and stays the gradient of its
    parameter. *)
Theorem step_frame (closure : option (M (option Val))) w0 r w :
  call closure w0 = (r, w) → wf w →
  let w' := (step closure w0).2 in
  (∀ l, l < length (heap w) → l ∉ all_params w →
        l ∉ moment_locs (state (self w)) →
        heap w' !! l = heap w !! l) ∧
  (∀ p g, p ∈ all_params w → grad (heap w !!! p) = Some g →
        grad (heap w' !!! p) = Some g ∧ heap w' !! g = heap w !! g).
Proof.
  intros Hc Hwf w'. split.
  - intros l. by apply (step_foreign closure w0 r w).
  - intros p g. by apply (step_gradient closure w0 r w).
Qed.


(** *** When [step] returns *)

Lemma dense_or_absent_back w w' q :
  wf w → evolves w w' → q ∈ all_params w →
  dense_or_absent w' q → dense_or_absent w q.
Proof.
  intros Hwf (_ & _ & Hattr) Hq. unfold dense_or_absent.
  destruct (Hattr q (wf_param _ _ Hwf Hq)) as [-> _].
  destruct (grad (heap w !!! q)) as [g|] eqn:Hg; [|done].
  destruct (wf_grad _ _ _ Hwf Hq Hg) as (Hgl & _).
  by destruct (Hattr g Hgl) as (_ & -> & _).
Qed.

(** The loops raise nothing but the RuntimeError of a sparse gradient,
    and return only if they met none. *)
Lemma for_outcome xs w r w' :
  wf w → Forall (λ x, x.2 ∈ all_params w) xs →
  for_ xs visit w = (r, w') →
  match r with
  | Ok _ => Forall (λ x, dense_or_absent w x.2) xs
  | Raise e => e = RuntimeError
  end.
Proof.
  revert w. induction xs as [|[G q] xs IH]; intros w Hwf Hxs Hrun.
  { injection Hrun as <- <-. constructor. }
  apply Forall_cons in Hxs as [Hq Hxs]. simpl in Hq, Hrun.
  rewrite bind_run in Hrun.
  destruct (update_param G q w) as [r1 w1] eqn:Hvisit.
  destruct (visit_frame G q w r1 w1 Hwf Hq Hvisit) as (Hwf1 & Hev1 & _).
  pose proof Hev1 as (Hgr1 & _).
  assert (Hone : match r1 with
                 | Ok _ => dense_or_absent w q
                 | Raise e => e = RuntimeError
                 end).
  { unfold dense_or_absent.
    destruct (visit_cases G q w Hwf Hq)
      as [[Hg Hr]|[(g & Hg & Hs & Hr)|[(g & st & Hg & Hs & _ & Hr)
         |(g & Hg & Hs & _ & Hr)]]];
      rewrite Hr in Hvisit; injection Hvisit as <- _; by rewrite ?Hg, ?Hs. }
  destruct r1 as [[]|e]; [|by injection Hrun as <- <-].
  assert (Hxs1 : Forall (λ x, x.2 ∈ all_params w1) xs)
    by (by rewrite (all_params_groups w w1)).
  specialize (IH w1 Hwf1 Hxs1 Hrun).
  destruct r as [[]|e]; [|done].
  constructor; [done|].
  apply Forall_forall. intros x Hx. rewrite Forall_forall in IH, Hxs.
  apply (dense_or_absent_back w w1); auto.
Qed.

Lemma iteration_dense w :
  Forall (dense_or_absent w) (all_params w) →
  Forall (λ x, x.2 ∈ all_params w ∧ dense_or_absent w x.2) (iteration w).
Proof.
  intros Hd. rewrite Forall_forall in Hd.
  apply Forall_forall. intros x Hx.
  pose proof (all_params_iteration w x Hx). auto.
Qed.

Lemma visit_count G q0 w r w1 q :
  wf w → q0 ∈ all_params w → update_param G q0 w = (r, w1) →
  (step_count w q ≤ step_count w1 q ≤ step_count w q + 1)%Z.
Proof.
  intros Hwf Hq0 Hvisit. destruct (decide (q = q0)) as [->|Hne].
  - destruct (visit_cases G q0 w Hwf Hq0)
      as [[_ Hr]|[(g & _ & _ & Hr)|[(g & st & Hg & Hs & _)
         |(g & Hg & Hs & _)]]].
    + rewrite Hr in Hvisit. injection Hvisit as _ <-. lia.
    + rewrite Hr in Hvisit. injection Hvisit as _ <-. lia.
    + destruct (visit_dense G q0 g w Hwf Hq0 Hg Hs)
        as (w2 & st' & Hv2 & _ & _ & Hc & _).
      rewrite Hv2 in Hvisit. injection Hvisit as _ <-. lia.
    + destruct (visit_dense G q0 g w Hwf Hq0 Hg Hs)
        as (w2 & st' & Hv2 & _ & _ & Hc & _).
      rewrite Hv2 in Hvisit. injection Hvisit as _ <-. lia.
  - destruct (visit_frame G q0 w r w1 Hwf Hq0 Hvisit) as (_ & _ & Hst & _).
    unfold step_count. rewrite Hst by done. lia.
Qed.

(** No visit lowers a step count, and each raises it by one at most. *)
Lemma for_count_range xs q w r w' :
  wf w → Forall (λ x, x.2 ∈ all_params w) xs →
  for_ xs visit w = (r, w') →
  (step_count w q ≤ step_count w' q ≤
   step_count w q + Z.of_nat (length xs))%Z.
Proof.
  revert w. induction xs as [|[G q0] xs IH]; intros w Hwf Hxs Hrun.
  { injection Hrun as <- <-. simpl. lia. }
  apply Forall_cons in Hxs as [Hq0 Hxs]. simpl in Hq0, Hrun.
  rewrite bind_run in Hrun.
  destruct (update_param G q0 w) as [r1 w1] eqn:Hvisit.
  pose proof (visit_count G q0 w r1 w1 q Hwf Hq0 Hvisit) as Hone.
  destruct (visit_frame G q0 w r1 w1 Hwf Hq0 Hvisit) as (Hwf1 & Hev1 & _).
  pose proof Hev1 as (Hgr1 & _).
  destruct r1 as [[]|e].
  - assert (Hxs1 : Forall (λ x, x.2 ∈ all_params w1) xs)
      by (by rewrite (all_params_groups w w1)).
    specialize (IH w1 Hwf1 Hxs1 Hrun). simpl length. lia.
  - injection Hrun as <- <-. simpl length. lia.
Qed.

(** X4: on a store where [beta ** step] cannot raise (validated betas,
    step counts in range), once the closure has returned, [step] returns
    (the closure's value) exactly when no parameter has a sparse gradient;
    otherwise it raises, and RuntimeError is the only exception the loops
    raise there.  The step counts the call leaves are still exponents
    Python can take. *)
Theorem step_returns_iff_dense (closure : option (M (option Val)))
    w0 loss w :
  call closure w0 = (Ok loss, w) → wf w → pow_safe w →
  ((step closure w0).1 = Ok loss ↔
   Forall (dense_or_absent w) (all_params w)) ∧
  ((step closure w0).1 = Ok loss ∨
   (step closure w0).1 = Raise RuntimeError) ∧
  (∀ q st', state (self (step closure w0).2) !! q = Some st' →
            (0 ≤ st_step st' < 2 ^ 1023)%Z).
Proof.
  intros Hc Hwf (_ & Hlen & Hsteps). destruct (updates w) as [r w1] eqn:Hu.
  rewrite (step_Ok closure w0 loss w r w1 Hc Hu). simpl.
  rewrite updates_iteration in Hu.
  pose proof (for_outcome _ _ _ _ Hwf (iteration_all w) Hu) as Hout.
  split_and!.
  - split.
    + intros Hr. destruct r as [[]|e]; [|done].
      apply Forall_forall. intros p Hp.
      apply list_elem_of_fmap in Hp as (x & -> & Hx).
      rewrite Forall_forall in Hout. by apply Hout.
    + intros Hd.
      by rewrite (for_ok (iteration w) w r w1 Hwf (iteration_dense w Hd) Hu).
  - destruct r as [[]|e]; [by left|right; by rewrite Hout].
  - intros q st' Hst'.
    pose proof (for_count_range _ q _ _ _ Hwf (iteration_all w) Hu) as Hrange.
    unfold all_params in Hlen. rewrite length_fmap in Hlen.
    assert (Hq : (0 ≤ step_count w q < 2 ^ 1022)%Z).
    { unfold step_count. destruct (state (self w) !! q) as [st|] eqn:Hst.
      - exact (Hsteps q st Hst).
      - split; [done|]. by apply Z.pow_pos_nonneg. }
    unfold step_count at 2 3 in Hrange. rewrite Hst' in Hrange.
    replace (2 ^ 1023)%Z with (2 ^ 1022 + 2 ^ 1022)%Z; [lia|].
    change 1023%Z with (Z.succ 1022). rewrite Z.pow_succ_r by done. lia.
Qed.

(** *** The state dict *)

Lemma for_state_dom xs q' w r w' :
  wf w →
  Forall (λ x, x.2 ∈ all_params w ∧ dense_or_absent w x.2) xs →
  for_ xs visit w = (r, w') →
  is_Some (state (self w') !! q') ↔
  is_Some (state (self w) !! q') ∨
  (q' ∈ xs.*2 ∧ is_Some (grad (heap w !!! q'))).
Proof.
  revert w. induction xs as [|[G q] xs IH]; intros w Hwf Hxs Hrun.
  { injection Hrun as <- <-. split; [by left|].
    intros [?|[Hin _]]; [done|]. by apply not_elem_of_nil in Hin. }
  apply Forall_cons in Hxs as [[Hq Hd] Hxs]. simpl in Hq, Hd, Hrun.
  rewrite bind_run in Hrun.
  destruct (update_param G q w) as [r1 w1] eqn:Hvisit.
  destruct (visit_frame G q w r1 w1 Hwf Hq Hvisit)
    as (Hwf1 & Hev1 & Hother & _).
  pose proof Hev1 as (Hgr1 & _ & Hattr1).
  assert (Hstep : is_Some (state (self w1) !! q') ↔
                  is_Some (state (self w) !! q') ∨
                  (q' = q ∧ is_Some (grad (heap w !!! q)))).
  { destruct (decide (q' = q)) as [->|Hne].
    - destruct (visit_cases G q w Hwf Hq)
        as [[Hg Hr]|[(g & Hg & Hs & Hr)|[(g & st & Hg & Hs & Hst & Hr)
           |(g & Hg & Hs & Hst & Hr)]]];
        rewrite Hr in Hvisit; injection Hvisit as <- <-.
      + rewrite Hg. split; [by left|]. intros [?|[_ [? ?]]]; done.
      + unfold dense_or_absent in Hd. rewrite Hg in Hd. congruence.
      + rewrite after_update_state, lookup_insert_eq, Hst. split; eauto.
      + rewrite after_update_state, lookup_insert_eq, Hg. split; eauto.
    - rewrite Hother by done. split; [by left|]. intros [?|[? _]]; done. }
  destruct r1 as [[]|e]; cycle 1.
  { exfalso.
    pose proof (for_ok [(G, q)] w (Raise e) w1 Hwf) as Hok.
    simpl in Hok. rewrite bind_run, Hvisit in Hok.
    by discriminate Hok; [repeat constructor|]. }
  rewrite (IH w1 Hwf1); [|
    apply Forall_forall; intros x Hx; rewrite Forall_forall in Hxs;
    destruct (Hxs x Hx); split;
      [by rewrite (all_params_groups w w1)
      |by apply (dense_or_absent_evolves w)] | done].
  rewrite Hstep. simpl. rewrite elem_of_cons. split.
  - intros [[?|[-> Hg]]|[Hin Hg]]; [by left|right; split; [by left|done]|].
    right. split; [by right|].
    rewrite Forall_forall in Hxs.
    apply list_elem_of_fmap in Hin as (x & -> & Hx).
    destruct (Hxs x Hx) as [Hx2 _].
    destruct (Hattr1 _ (wf_param _ _ Hwf Hx2)) as (<- & _). done.
  - intros [?|[[->|Hin] Hg]]; [by left; left|by left; right|].
    right. split; [done|].
    rewrite Forall_forall in Hxs.
    apply list_elem_of_fmap in Hin as (x & -> & Hx).
    destruct (Hxs x Hx) as [Hx2 _].
    destruct (Hattr1 _ (wf_param _ _ Hwf Hx2)) as (-> & _). done.
Qed.

(** X5: after a call of [step] that returns, the keys of the state dict
    are those it had before and the parameters that have a gradient:
    a parameter without gradient gets no entry, and no entry is ever
    removed. *)
Theorem state_dict_domain (closure : option (M (option Val)))
    w0 loss w q :
  call closure w0 = (Ok loss, w) → wf w →
  Forall (dense_or_absent w) (all_params w) →
  let w' := (step closure w0).2 in
  is_Some (state (self w') !! q) ↔
  is_Some (state (self w) !! q) ∨
  (q ∈ all_params w ∧ is_Some (grad (heap w !!! q))).
Proof.
  intros Hc Hwf Hd w'. unfold w'.
  destruct (updates w) as [r w1] eqn:Hu.
  rewrite (step_Ok closure w0 loss w r w1 Hc Hu). simpl.
  rewrite updates_iteration in Hu.
  by apply (for_state_dom (iteration w) q w r); [|apply iteration_dense|].
Qed.


(** *** A parameter listed more than once *)

Lemma for_count xs p g w r w' :
  wf w →
  Forall (λ x, x.2 ∈ all_params w ∧ dense_or_absent w x.2) xs →
  p ∈ all_params w →
  grad (heap w !!! p) = Some g →
  for_ xs visit w = (r, w') →
  step_count w' p =
    (step_count w p + Z.of_nat (length (filter (λ q, q = p) xs.*2)))%Z.
Proof.
  revert w. induction xs as [|[G q] xs IH]; intros w Hwf Hxs Hp Hg Hrun.
  { injection Hrun as <- <-. simpl. lia. }
  apply Forall_cons in Hxs as [[Hq Hd] Hxs]. simpl in Hq, Hd, Hrun.
  rewrite bind_run in Hrun.
  destruct (update_param G q w) as [r1 w1] eqn:Hvisit.
  destruct (visit_frame G q w r1 w1 Hwf Hq Hvisit)
    as (Hwf1 & Hev1 & Hother & _).
  pose proof Hev1 as (Hgr1 & _ & Hattr1).
  assert (r1 = Ok ()) as ->.
  { apply (for_ok [(G, q)] w r1 w1 Hwf); [by repeat constructor|].
    simpl. rewrite bind_run, Hvisit. by destruct r1 as [[]|]. }
  assert (Hcnt1 : step_count w1 p =
                  (step_count w p + if decide (q = p) then 1 else 0)%Z).
  { case_decide as Hqp.
    - subst q. unfold dense_or_absent in Hd. rewrite Hg in Hd.
      destruct (visit_dense G p g w Hwf Hp Hg Hd)
        as (w2 & st' & Hv2 & _ & _ & Hc & _).
      rewrite Hv2 in Hvisit. by injection Hvisit as <-.
    - unfold step_count. rewrite Hother by done. lia. }
  rewrite (IH w1 Hwf1); try done.
  - rewrite Hcnt1. rewrite fmap_cons. simpl fst. simpl snd.
    rewrite filter_cons. repeat case_decide; simpl; lia.
  - apply Forall_forall. intros x Hx. rewrite Forall_forall in Hxs.
    destruct (Hxs x Hx). split; [by rewrite (all_params_groups w w1)|].
    by apply (dense_or_absent_evolves w).
  - by rewrite (all_params_groups w w1).
  - by destruct (Hattr1 p (wf_param _ _ Hwf Hp)) as (-> & _).
Qed.

(** X6: a parameter listed several times is updated at each occurrence:
    one call of [step] raises its step count by the number of times it
    occurs in the groups. *)
Theorem repeated_parameter_count (closure : option (M (option Val)))
    w0 loss w p g :
  call closure w0 = (Ok loss, w) → wf w →
  Forall (dense_or_absent w) (all_params w) →
  p ∈ all_params w → grad (heap w !!! p) = Some g →
  let w' := (step closure w0).2 in
  step_count w' p =
    (step_count w p +
     Z.of_nat (length (filter (λ q, q = p) (all_params w))))%Z.
Proof.
  intros Hc Hwf Hd Hp Hg w'. unfold w'.
  destruct (updates w) as [r w1] eqn:Hu.
  rewrite (step_Ok closure w0 loss w r w1 Hc Hu). simpl.
  rewrite updates_iteration in Hu.
  by apply (for_count (iteration w) p g w r); [|apply iteration_dense|..].
Qed.

(** *** Allocation *)

Lemma for_alloc xs w r w' :
  wf w → Forall (λ x, x.2 ∈ all_params w) xs →
  for_ xs visit w = (r, w') →
  length (heap w') + 2 * size (state (self w)) =
  length (heap w) + 2 * size (state (self w')).
Proof.
  revert w. induction xs as [|[G q] xs IH]; intros w Hwf Hxs Hrun.
  { by injection Hrun as <- <-. }
  apply Forall_cons in Hxs as [Hq Hxs]. simpl in Hq, Hrun.
  rewrite bind_run in Hrun.
  destruct (update_param G q w) as [r1 w1] eqn:Hvisit.
  destruct (visit_frame G q w r1 w1 Hwf Hq Hvisit) as (Hwf1 & Hev1 & _).
  pose proof Hev1 as (Hgr1 & _).
  assert (Hone : length (heap w1) + 2 * size (state (self w)) =
                 length (heap w) + 2 * size (state (self w1))).
  { destruct (visit_cases G q w Hwf Hq)
      as [[_ Hr]|[(g & _ & _ & Hr)|[(g & st & _ & _ & Hst & Hr)
         |(g & _ & _ & Hst & Hr)]]];
      rewrite Hr in Hvisit; injection Hvisit as _ <-; [done..| |].
    - rewrite after_update_state, map_size_insert_Some by eauto.
      unfold after_update. simpl. by rewrite !length_alter.
    - rewrite after_update_state. unfold with_state, after_update. simpl.
      rewrite map_size_insert_Some by (rewrite lookup_insert_eq; eauto).
      rewrite map_size_insert_None by done.
      rewrite !length_alter, length_app. simpl. lia. }
  destruct r1 as [[]|e]; [|by injection Hrun as <- <-].
  assert (Hxs1 : Forall (λ x, x.2 ∈ all_params w1) xs)
    by (by rewrite (all_params_groups w w1)).
  specialize (IH w1 Hwf1 Hxs1 Hrun). lia.
Qed.

(** X7: [step] keeps two new tensors for each state dict it creates and
    no other (the temporaries of an update are dropped): the store grows
    by twice the number of new entries of the state dict, also when the
    call raises. *)
Theorem step_allocation (closure : option (M (option Val))) w0 r w :
  call closure w0 = (r, w) → wf w →
  let w' := (step closure w0).2 in
  length (heap w') + 2 * size (state (self w)) =
  length (heap w) + 2 * size (state (self w')).
Proof.
  intros Hc Hwf w'. unfold w'. destruct r as [loss|e].
  - destruct (updates w) as [r w1] eqn:Hu.
    rewrite (step_Ok closure w0 loss w r w1 Hc Hu). simpl.
    rewrite updates_iteration in Hu.
    by apply (for_alloc (iteration w) w r); [|apply iteration_all|].
  - by rewrite (step_Raise closure w0 e w Hc).
Qed.

(** *** A parameter without gradient *)

(** X8: a parameter without gradient keeps its step count and its two
    moments through a call of [step]: the moment tensors of its state dict
    are not decayed towards zero, they are not touched. *)
Theorem idle_keeps_moments (closure : option (M (option Val)))
    w0 r w p :
  call closure w0 = (r, w) → idle p w →
  let w' := (step closure w0).2 in
  step_count w' p = step_count w p ∧
  first_moment w' p = first_moment w p ∧
  second_moment w' p = second_moment w p ∧
  ∀ st, state (self w) !! p = Some st →
    heap w' !! st_m st = heap w !! st_m st ∧
    heap w' !! st_v st = heap w !! st_v st.
Proof.
  intros Hc (Hwf & Hp & Hg) w'.
  assert (Hview : same_view w w' p).
  { unfold w'. destruct r as [loss|e].
    - destruct (updates w) as [r w1] eqn:Hu.
      rewrite (step_Ok closure w0 loss w r w1 Hc Hu). simpl.
      rewrite updates_iteration in Hu.
      by destruct (for_frame (iteration w) p w r w1)
        as (_ & _ & ?); [|done|apply iteration_all|right|done|].
    - rewrite (step_Raise closure w0 e w Hc). apply same_view_refl. }
  destruct (same_view_values _ _ _ Hview) as (Hc' & Hm' & Hv' & _).
  split_and!; [done..|].
  intros st Hst. destruct Hview as [_ Hown].
  split; apply Hown; right; right; eauto.
Qed.


(** *** Calls that follow each other *)

(** X9: [step] leaves the gradient in place, so that calls without a
    closure that follow each other use the same gradient again: after [n]
    calls the step count, the moments and the parameter are those of [n]
    updates from that one gradient. *)
Theorem gradient_kept_between_steps n w G p g :
  visits_once w G p g →
  let w' := run_steps (Val:=Val) (replicate n None) w in
  values w' g = values w g ∧
  (step_count w' p, first_moment w' p, second_moment w' p, values w' p) =
    repeated G (values w g) n (step_count w p)
      (first_moment w p) (second_moment w p) (values w p).
Proof.
  revert w. induction n as [|n IH]; intros w Hv w'; [done|].
  unfold w'. simpl.
  destruct (step_adam (Val:=Val) None w None w G p g eq_refl Hv)
    as (Hwf1 & Hev1 & _ & Hc1 & Hm1 & Hv1 & Hp1).
  pose proof Hv as (Hwf & Hg & _ & pre & post & Hit & _).
  destruct (iteration_split _ _ _ _ Hit) as (_ & Hp & _). simpl in Hp.
  destruct (step_gradient None w (Ok None) w p g eq_refl Hwf Hp Hg)
    as [_ Hgs].
  assert (Hvals : values (step (Val:=Val) None w).2 g = values w g).
  { unfold values. by rewrite !list_lookup_total_alt, Hgs. }
  destruct (IH _ (visits_once_evolves _ _ _ _ _ Hv Hwf1 Hev1)) as [IHg IHt].
  split; [by rewrite IHg|].
  rewrite IHt, Hvals, Hc1, Hm1, Hv1, Hp1. done.
Qed.


(** *** From the constructor to the first call *)

Lemma AdamW_init_Ok ps lr betas eps wd cb opt :
  AdamW_init ps lr betas eps wd cb = Ok opt →
  ((lr <? 0)%float = false ∧ in_unit_interval betas.1 = true ∧
   in_unit_interval betas.2 = true ∧ (0 <=? eps)%float = true ∧ ps ≠ []) ∧
  opt = {| param_groups :=
             [ {| params := ps; lr := lr; betas := betas; eps := eps;
                  weight_decay := wd; correct_bias := cb |} ];
           state := ∅ |}.
Proof.
  unfold AdamW_init, Optimizer_init.
  destruct (lr <? 0)%float; [done|].
  destruct (in_unit_interval betas.1); [|done].
  destruct (in_unit_interval betas.2); [|done].
  destruct (0 <=? eps)%float; [|done].
  destruct ps; [done|]. simpl. by intros [= <-].
Qed.

Lemma iteration_one_group h G s :
  iteration {| heap := h; self := {| param_groups := [G]; state := s |} |}
  = (λ p, (G, p)) <$> params G.
Proof.
  unfold iteration. simpl. rewrite app_nil_r.
  induction (params G) as [|p ps IH]; [done|]. simpl. by f_equal.
Qed.

Lemma all_params_one_group h G s :
  all_params {| heap := h; self := {| param_groups := [G]; state := s |} |}
  = params G.
Proof.
  unfold all_params. rewrite iteration_one_group, <-list_fmap_compose.
  apply list_fmap_id.
Qed.

Lemma hosts_wf h G :
  hosts h (params G) →
  wf {| heap := h; self := {| param_groups := [G]; state := ∅ |} |}.
Proof.
  intros Hh. unfold wf. rewrite all_params_one_group. simpl.
  unfold moment_locs. rewrite map_to_list_empty. simpl.
  split_and!.
  - eapply Forall_impl; [exact Hh|]. by intros p [? _].
  - constructor.
  - constructor.
  - eapply Forall_impl; [exact Hh|]. intros p [_ Hg].
    unfold grad_ok, values. simpl. destruct (grad (h !!! p)) as [g|]; [|done].
    rewrite all_params_one_group. unfold moment_locs.
    rewrite map_to_list_empty. simpl. destruct Hg as (? & ? & ?).
    split_and!; [done..|apply not_elem_of_nil|done].
  - apply map_Forall_empty.
Qed.

Lemma visits_once_nodup w G p g :
  wf w → NoDup (all_params w) → Forall (dense_or_absent w) (all_params w) →
  (G, p) ∈ iteration w → grad (heap w !!! p) = Some g →
  visits_once w G p g.
Proof.
  intros Hwf Hnd Hd Hin Hg.
  assert (Hs : is_sparse (heap w !!! g) = false).
  { rewrite Forall_forall in Hd.
    specialize (Hd p (all_params_iteration w _ Hin)).
    unfold dense_or_absent in Hd. by rewrite Hg in Hd. }
  apply list_elem_of_split in Hin as (pre & post & Hit).
  unfold all_params in Hnd, Hd. rewrite Hit, fmap_app, fmap_cons in Hnd, Hd.
  simpl in Hnd, Hd.
  apply NoDup_app in Hnd as (_ & Hpre & Hnd).
  apply NoDup_cons in Hnd as [Hpost _].
  apply Forall_app in Hd as [Hd _].
  split_and!; [done..|]. exists pre, post. split_and!; [done| |done|].
  - intros Hp. apply (Hpre p Hp). by left.
  - rewrite Forall_fmap in Hd. exact Hd.
Qed.

(** X11: the first call of [step] after the constructor.  With distinct
    parameters and dense gradients the call returns [None], and a
    parameter that has a gradient ends with the step count 1, the moments
    of one update from zeros and the value of that update, all with the
    hyperparameters the constructor was given. *)
Theorem first_step_after_construction
    h ps lr betas eps wd cb opt p g :
  AdamW_init ps lr betas eps wd cb = Ok opt →
  hosts h ps → NoDup ps →
  Forall (λ q, dense_or_absent {| heap := h; self := opt |} q) ps →
  p ∈ ps → grad (h !!! p) = Some g →
  let G := {| params := ps; lr := lr; betas := betas; eps := eps;
              weight_decay := wd; correct_bias := cb |} in
  let w := {| heap := h; self := opt |} in
  let zeros := replicate (length (values w p)) el_zero in
  let m' := moment1 betas.1 zeros (values w g) in
  let v' := moment2 betas.2 zeros (values w g) in
  ∃ w',
    step (Val:=Val) None w = (Ok None, w') ∧
    step_count w' p = 1%Z ∧
    first_moment w' p = m' ∧ second_moment w' p = v' ∧
    values w' p = updated G 1 m' v' (values w p).
Proof.
  intros [_ ->]%AdamW_init_Ok Hh Hnd Hd Hp Hg G w zeros m' v'.
  assert (Hwf : wf w) by (by apply (hosts_wf h G)).
  assert (Hall : all_params w = ps) by apply (all_params_one_group h G).
  assert (Hin : (G, p) ∈ iteration w).
  { unfold w. rewrite (iteration_one_group h G). apply list_elem_of_fmap.
    by exists p. }
  assert (Hv : visits_once w G p g).
  { apply visits_once_nodup; try done; by rewrite Hall. }
  destruct (step (Val:=Val) None w) as [r w'] eqn:Hstep. exists w'.
  assert (Hr : (step (Val:=Val) None w).1 = Ok None).
  { rewrite step_run. simpl. destruct (updates w) as [r2 w2] eqn:Hu.
    rewrite updates_iteration in Hu.
    assert (r2 = Ok ()) as ->; [|done].
    apply (for_ok (iteration w) w r2 w2 Hwf); [|done].
    apply iteration_dense. by rewrite Hall. }
  destruct (step_adam (Val:=Val) None w None w G p g eq_refl Hv)
    as (_ & _ & _ & Hc1 & Hm1 & Hv1 & Hp1).
  rewrite Hstep in Hr, Hc1, Hm1, Hv1, Hp1. simpl in Hr, Hc1, Hm1, Hv1, Hp1.
  subst r. split; [done|].
  assert (H0 : step_count w p = 0%Z ∧ first_moment w p = zeros ∧
               second_moment w p = zeros).
  { unfold step_count, first_moment, second_moment. simpl.
    by rewrite lookup_empty. }
  destruct H0 as (H0 & H1 & H2). rewrite H0, H1, H2 in *. by split_and!.
Qed.

End Further.


(** ** NaN in the constructor *)

Lemma is_nan_Prim2SF x : is_nan x = true → Prim2SF x = S754_nan.
Proof.
  unfold is_nan. rewrite FloatAxioms.eqb_spec. destruct (Prim2SF x) as [s|s| |s m e];
    try done; unfold SFeqb, SFcompare.
  - by destruct s.
  - rewrite Z.compare_refl, Pos.compare_cont_refl. by destruct s.
Qed.

Lemma nan_ltb_l x y : is_nan x = true → (x <? y)%float = false.
Proof. intros Hx. rewrite FloatAxioms.ltb_spec, (is_nan_Prim2SF x Hx). done. Qed.

Lemma nan_leb_r x y : is_nan x = true → (y <=? x)%float = false.
Proof.
  intros Hx. rewrite FloatAxioms.leb_spec, (is_nan_Prim2SF x Hx).
  by destruct (Prim2SF y) as [[]|[]| |[]].
Qed.

Lemma nan_outside_unit_interval x :
  is_nan x = true → in_unit_interval x = false.
Proof. intros Hx. unfold in_unit_interval. by rewrite nan_leb_r. Qed.

(** X12: the constructor on a NaN.  A NaN beta or a NaN [eps] is refused
    with ValueError, since [0.0 <= x] is false; a NaN [lr] is accepted and
    stored, since [lr < 0.0] is false as well. *)
Theorem nan_hyperparameters ps x lr betas eps wd cb :
  is_nan x = true →
  AdamW_init ps lr (x, betas.2) eps wd cb = Raise ValueError ∧
  AdamW_init ps lr (betas.1, x) eps wd cb = Raise ValueError ∧
  AdamW_init ps lr betas x wd cb = Raise ValueError ∧
  (in_unit_interval betas.1 = true → in_unit_interval betas.2 = true →
   (0 <=? eps)%float = true → ps ≠ [] →
   AdamW_init ps x betas eps wd cb =
   Ok {| param_groups :=
           [ {| params := ps; lr := x; betas := betas; eps := eps;
                weight_decay := wd; correct_bias := cb |} ];
         state := ∅ |}).
Proof.
  intros Hx. unfold AdamW_init. simpl. split_and!.
  - rewrite nan_outside_unit_interval by done. by destruct (lr <? 0)%float.
  - rewrite (nan_outside_unit_interval x) by done.
    destruct (lr <? 0)%float; [done|]. by destruct (in_unit_interval _).
  - rewrite nan_leb_r by done. destruct (lr <? 0)%float; [done|].
    destruct (in_unit_interval _); [|done].
    by destruct (in_unit_interval _).
  - intros -> -> -> Hps. rewrite nan_ltb_l by done. simpl.
    unfold Optimizer_init. by destruct ps.
Qed.

(** * The further properties at the sample worlds *)

Lemma sample_dense wd cb :
  Forall (dense_or_absent (sample_world wd cb)) (all_params (sample_world wd cb)).
Proof. apply (bool_decide_unpack _). by vm_compute. Qed.

Lemma tied_world_wf : wf tied_world.
Proof. apply (bool_decide_unpack _). by vm_compute. Qed.

Lemma step_without_gradients_witness :
  let w0 := sample_world 0%float true in
  let w := set_heap (alter (set_grad None) 0) w0 in
  call (Val:=unit) (Some (clear_grad 0)) w0 = (Ok None, w) ∧
  Forall (λ p, grad (heap w !!! p) = None) (all_params w) ∧
  step (Val:=unit) (Some (clear_grad 0)) w0 = (Ok None, w).
Proof.
  intros w0 w.
  assert (Hnone : Forall (λ p, grad (heap w !!! p) = None) (all_params w)).
  { apply (bool_decide_unpack _). by vm_compute. }
  split_and!; [done..|].
  exact (step_without_gradients (Some (clear_grad 0)) w0 None w eq_refl Hnone).
Defined.

Lemma step_keeps_well_formed_witness :
  wf sparse_world ∧
  (step (Val:=unit) None sparse_world).1 = Raise RuntimeError ∧
  wf (step (Val:=unit) None sparse_world).2 ∧
  length (heap sparse_world) ≤ length (heap (step (Val:=unit) None sparse_world).2).
Proof.
  split_and!; [apply sparse_world_wf|by vm_compute|..];
    destruct (step_keeps_well_formed (Val:=unit) None sparse_world (Ok None)
                sparse_world eq_refl sparse_world_wf) as (Hwf & _ & Hlen & _);
    done.
Defined.

Lemma step_frame_witness :
  let w := sample_world 0.01%float true in
  let w' := (step (Val:=unit) None w).2 in
  wf w ∧ 0 ∈ all_params w ∧ grad (heap w !!! 0) = Some 1 ∧
  grad (heap w' !!! 0) = Some 1 ∧ heap w' !! 1 = heap w !! 1.
Proof.
  intros w w'.
  assert (Hp : 0 ∈ all_params w) by (apply (bool_decide_unpack _); by vm_compute).
  split_and!; [apply sample_world_wf|done|done|..];
    destruct (step_frame (Val:=unit) None w (Ok None) w eq_refl
                (sample_world_wf _ _)) as [_ Hg];
    by destruct (Hg 0 1 Hp eq_refl).
Defined.

Lemma sample_pow_safe wd cb : pow_safe (sample_world wd cb).
Proof. apply (bool_decide_unpack _). by vm_compute. Qed.

Lemma step_returns_iff_dense_witness :
  let w := sample_world 0%float true in
  wf w ∧ pow_safe w ∧ Forall (dense_or_absent w) (all_params w) ∧
  (step (Val:=unit) None w).1 = Ok None ∧
  wf sparse_world ∧ pow_safe sparse_world ∧
  ¬ Forall (dense_or_absent sparse_world) (all_params sparse_world) ∧
  (step (Val:=unit) None sparse_world).1 ≠ Ok None.
Proof.
  intros w.
  assert (Hsafe : pow_safe sparse_world)
    by (apply (bool_decide_unpack _); by vm_compute).
  assert (Hsparse : ¬ Forall (dense_or_absent sparse_world)
                      (all_params sparse_world)).
  { apply (bool_decide_unpack _). by vm_compute. }
  split_and!; [apply sample_world_wf|apply sample_pow_safe|apply sample_dense
              | |apply sparse_world_wf|done|done|].
  - destruct (step_returns_iff_dense (Val:=unit) None w None w eq_refl
                (sample_world_wf _ _) (sample_pow_safe _ _)) as [[_ H] _].
    apply H, sample_dense.
  - destruct (step_returns_iff_dense (Val:=unit) None sparse_world None
                sparse_world eq_refl sparse_world_wf Hsafe) as [[H _] _].
    intros Hr. by apply Hsparse, H.
Defined.

Lemma state_dict_domain_witness :
  let w := sample_world 0%float true in
  let w' := (step (Val:=unit) None w).2 in
  wf w ∧ Forall (dense_or_absent w) (all_params w) ∧
  is_Some (state (self w') !! 0) ∧ ¬ is_Some (state (self w') !! 2).
Proof.
  intros w w'. split_and!; [apply sample_world_wf|apply sample_dense|..].
  - apply (state_dict_domain (Val:=unit) None w None w 0 eq_refl
             (sample_world_wf _ _) (sample_dense _ _)).
    right. split; [|by eexists]. apply (bool_decide_unpack _). by vm_compute.
  - intros H.
    apply (state_dict_domain (Val:=unit) None w None w 2 eq_refl
             (sample_world_wf _ _) (sample_dense _ _)) in H.
    destruct H as [[st H]|[_ [g H]]]; discriminate H.
Defined.

Lemma repeated_parameter_count_witness :
  let w := tied_world in
  wf w ∧ Forall (dense_or_absent w) (all_params w) ∧
  0 ∈ all_params w ∧ grad (heap w !!! 0) = Some 1 ∧
  all_params w = [0; 2; 0] ∧
  step_count (step (Val:=unit) None w).2 0 = 2%Z.
Proof.
  intros w.
  assert (Hd : Forall (dense_or_absent w) (all_params w))
    by (apply (bool_decide_unpack _); by vm_compute).
  assert (Hp : 0 ∈ all_params w) by (apply (bool_decide_unpack _); by vm_compute).
  split_and!; [apply tied_world_wf|done..|].
  by rewrite (repeated_parameter_count (Val:=unit) None w None w 0 1 eq_refl
                tied_world_wf Hd Hp eq_refl).
Defined.

Lemma step_allocation_witness :
  let w := sample_world 0%float true in
  let w' := (step (Val:=unit) None w).2 in
  wf w ∧ size (state (self w)) = 0 ∧ length (heap w) = 4 ∧
  length (heap w') = 4 + 2 * size (state (self w')).
Proof.
  intros w w'. split_and!; [apply sample_world_wf|done..|].
  pose proof (step_allocation (Val:=unit) None w (Ok None) w eq_refl
                (sample_world_wf _ _)) as H.
  cbv zeta in H. fold w' in H.
  change (size (state (self w))) with 0 in H.
  change (length (heap w)) with 4 in H. lia.
Defined.

Lemma idle_keeps_moments_witness :
  let w0 := (step (Val:=unit) None (sample_world 0%float true)).2 in
  let w := set_heap (alter (set_grad None) 0) w0 in
  let w' := (step (Val:=unit) (Some (clear_grad 0)) w0).2 in
  call (Val:=unit) (Some (clear_grad 0)) w0 = (Ok None, w) ∧
  idle 0 w ∧ step_count w 0 = 1%Z ∧
  step_count w' 0 = 1%Z ∧
  first_moment w' 0 = [0.0099999999999999985%float].
Proof.
  intros w0 w w'.
  assert (Hidle : idle 0 w).
  { split_and!; [| |by vm_compute]; apply (bool_decide_unpack _); by vm_compute. }
  split_and!; [done|done|by vm_compute|..];
    destruct (idle_keeps_moments (Val:=unit) (Some (clear_grad 0)) w0
                (Ok None) w 0 eq_refl Hidle) as (Hc & Hm & _);
    fold w' in Hc, Hm.
  - rewrite Hc. by vm_compute.
  - rewrite Hm. by vm_compute.
Defined.

Lemma gradient_kept_between_steps_witness :
  let w := sample_world 0%float true in
  let w' := run_steps (Val:=unit) [None; None] w in
  visits_once w (sample_group 0%float true) 0 1 ∧
  values w' 1 = [0.1%float] ∧ step_count w' 0 = 2%Z ∧
  first_moment w' 0 =
    moment1 0.9 (moment1 0.9 [0%float] [0.1%float]) [0.1%float].
Proof.
  intros w w'. split; [apply sample_visits_once|].
  destruct (gradient_kept_between_steps (Val:=unit) 2 w
              (sample_group 0%float true) 0 1 (sample_visits_once _ _))
    as [Hg Ht].
  change (run_steps (replicate 2 None) w) with w' in Hg, Ht.
  split; [by rewrite Hg|].
  cbn [repeated] in Ht.
  pose proof (f_equal (λ x, x.1.1.1) Ht) as Hc.
  pose proof (f_equal (λ x, x.1.1.2) Ht) as Hm.
  cbn [fst snd] in Hc, Hm. rewrite Hc, Hm. split; by vm_compute.
Defined.

Lemma first_step_after_construction_witness :
  let opt := {| param_groups :=
                  [ {| params := [0; 2]; lr := 0.1%float;
                       betas := default_betas; eps := default_eps;
                       weight_decay := 0%float; correct_bias := true |} ];
                state := ∅ |} in
  let w := {| heap := sample_heap None; self := opt |} in
  AdamW_init [0; 2] 0.1%float default_betas default_eps 0%float true
    = Ok opt ∧
  hosts (sample_heap None) [0; 2] ∧ NoDup [0; 2] ∧
  Forall (dense_or_absent w) [0; 2] ∧
  ∃ w', step (Val:=unit) None w = (Ok None, w') ∧
        step_count w' 0 = 1%Z ∧
        values w' 0 = [0.90000099999000005%float].
Proof.
  intros opt w.
  assert (Hh : hosts (sample_heap None) [0; 2])
    by (apply (bool_decide_unpack _); by vm_compute).
  assert (Hnd : NoDup [0; 2]) by (apply (bool_decide_unpack _); by vm_compute).
  assert (Hd : Forall (dense_or_absent w) [0; 2])
    by (apply (bool_decide_unpack _); by vm_compute).
  assert (Hp : 0 ∈ [0; 2]) by (by left).
  split_and!; [done..|].
  destruct (first_step_after_construction (Val:=unit) (sample_heap None)
              [0; 2] 0.1%float default_betas default_eps 0%float true opt
              0 1 eq_refl Hh Hnd Hd Hp eq_refl)
    as (w' & Hstep & Hc & _ & _ & Hv).
  exists w'. split_and!; [done..|]. rewrite Hv. by vm_compute.
Defined.

Lemma nan_hyperparameters_witness :
  is_nan nan = true ∧
  AdamW_init [0; 2] default_lr (nan, 0.999%float) default_eps 0%float true
    = Raise ValueError ∧
  AdamW_init [0; 2] default_lr default_betas nan 0%float true
    = Raise ValueError ∧
  ∃ opt, AdamW_init [0; 2] nan default_betas default_eps 0%float true
         = Ok opt.
Proof.
  split; [done|].
  destruct (nan_hyperparameters [0; 2] nan default_lr default_betas
              default_eps 0%float true eq_refl) as (H1 & _ & H3 & H4).
  split_and!; [exact H1|exact H3|].
  eexists. by apply H4.
Defined.
